(** * Route collectors of [packages/core-api/src/routing/collectors.tsx]

    A shallow embedding of the three element-tree collectors
    ([routePathCollector], [routeParentCollector], [routeObjectCollector])
    and of the helper [getMountPoint], followed by the properties the
    specification states about them.

    - React elements are values of [Node]; object identity ([===]) is the
      equality of [node_id].
    - JavaScript truthiness is written out: [js_truthy] for a
      [string | undefined] (the empty string is falsy), [js_truthy_bool] for
      a [boolean | undefined].
    - A [throw] is the [Err] result; the accumulator is threaded explicitly.
    - The arrays of [routeObjectCollector] are shared mutable objects: they
      live in a [Heap], and a context is the address of an array. *)

From Stdlib Require Import String.
From stdpp Require Import base option list gmap strings.

(** ** Data model *)

(** A [RouteRef] is an opaque object; only its identity is observed. *)
Definition RouteRef := nat.

(** A React element as far as the collectors look at it: [props.path],
    [props.caseSensitive], [props.element] (kept only when it is a valid
    element, which is all [isValidElement] and [===] can tell apart), the
    component data stored under ['core.mountPoint'] and
    ['core.gatherMountPoints'], and the elements the traversal discovers
    below the node. *)
#[local] Unset Elimination Schemes.
Inductive Node : Type :=
  mkNode (node_id : nat)
         (path : option string)
         (caseSensitive : option bool)
         (element : option Node)
         (mountPoint : option RouteRef)
         (gatherMountPoints : option bool)
         (children : list Node).
#[local] Set Elimination Schemes.

Definition node_id (n : Node) : nat :=
  match n with mkNode i _ _ _ _ _ _ => i end.
Definition props_path (n : Node) : option string :=
  match n with mkNode _ p _ _ _ _ _ => p end.
Definition props_caseSensitive (n : Node) : option bool :=
  match n with mkNode _ _ c _ _ _ _ => c end.
Definition props_element (n : Node) : option Node :=
  match n with mkNode _ _ _ e _ _ _ => e end.
Definition children (n : Node) : list Node :=
  match n with mkNode _ _ _ _ _ _ cs => cs end.

(** Modelled from the spec: [getComponentData] of [../extensions] is not
    part of the sources at hand.  The spec describes it as a read-only
    "metadata lookup keyed by string tags ([mountPoint] yielding a route
    identifier, [gatherMountPoints] yielding a boolean flag)", keyed by node
    identity; here the two tags are fields of the node. *)
Definition getComponentData_mountPoint (n : Node) : option RouteRef :=
  match n with mkNode _ _ _ _ m _ _ => m end.
Definition getComponentData_gatherMountPoints (n : Node) : option bool :=
  match n with mkNode _ _ _ _ _ g _ => g end.

(** [a === b] on elements. *)
Definition same_node (a b : Node) : bool := Nat.eqb (node_id a) (node_id b).

(** Truthiness of a [string | undefined]. *)
Definition js_truthy (v : option string) : bool :=
  match v with
  | Some (String _ _) => true
  | Some EmptyString => false
  | None => false
  end.

(** Truthiness of a [boolean | undefined]; also [Boolean(v)]. *)
Definition js_truthy_bool (v : option bool) : bool :=
  match v with
  | Some b => b
  | None => false
  end.

(** The errors the reducers throw, under the names the specification gives
    them. *)
Inductive Error : Type :=
  | MissingGatherPath                       (* 'Mount point gatherer must have a path' *)
  | MissingMountPath                        (* 'Mounted routable extension must have a path' *)
  | MissingRouteObjectPath (r : RouteRef).  (* `No path found for mount point ${routeRef}` *)

Inductive Result (A : Type) : Type :=
  | Ok (a : A)
  | Err (e : Error).
Arguments Ok {A} a.
Arguments Err {A} e.

Definition is_ok {A} (r : Result A) : bool :=
  match r with Ok _ => true | Err _ => false end.

(** ** [getMountPoint] (lines 22-31) *)

Definition getMountPoint (node : Node) : option RouteRef :=
  match getComponentData_mountPoint node with
  | Some routeRef => Some routeRef
  | None =>
      match props_element node with
      | Some element => getComponentData_mountPoint element
      | None => None
      end
  end.

(** [parent?.props.element === node], the test that opens every reducer. *)
Definition is_alias (parent : option Node) (node : Node) : bool :=
  match parent with
  | Some p =>
      match props_element p with
      | Some e => same_node e node
      | None => false
      end
  | None => false
  end.

(** ** [routePathCollector] (lines 33-72) *)

Definition routePathCollector_visit
    (acc : gmap RouteRef string) (node : Node) (parent : option Node)
    (ctxPath : option string) : Result (gmap RouteRef string * option string) :=
  if is_alias parent node then Ok (acc, ctxPath) else
  (* lines 45-51 *)
  let gathered :=
    if js_truthy_bool (getComponentData_gatherMountPoints node) then
      if js_truthy (props_path node) then Ok (props_path node)
      else Err MissingGatherPath
    else Ok ctxPath in
  match gathered with
  | Err e => Err e
  | Ok currentCtxPath =>
      (* lines 53-70 *)
      match getMountPoint node with
      | Some routeRef =>
          let '(path, currentCtxPath') :=
            if js_truthy currentCtxPath then
              if js_truthy (props_path node) then (props_path node, None)
              else (currentCtxPath, currentCtxPath)
            else (props_path node, currentCtxPath) in
          match path with
          | Some (String a s) => Ok (<[routeRef := String a s]> acc, currentCtxPath')
          | _ => Err MissingMountPath
          end
      | None => Ok (acc, currentCtxPath)
      end
  end.

(** ** [routeParentCollector] (lines 74-110) *)

(** The values that flow through the context and into the map:
    [undefined], a [RouteRef], or an object [{ sticky: v }].  The reducer
    builds [{ sticky: nextParent }] from whatever [nextParent] holds, so
    the wrapped value is again any of the three. *)
Inductive ParentValue : Type :=
  | PUndefined
  | PRef (r : RouteRef)
  | PSticky (inner : ParentValue).

Definition is_sticky (v : ParentValue) : bool :=
  match v with PSticky _ => true | _ => false end.

Definition routeParentCollector_visit
    (acc : gmap RouteRef ParentValue) (node : Node) (parent : option Node)
    (parentRouteRef : ParentValue)
    : Result (gmap RouteRef ParentValue * ParentValue) :=
  if is_alias parent node then Ok (acc, parentRouteRef) else
  let '(acc', nextParent) :=
    match getMountPoint node with
    | Some routeRef =>
        match parentRouteRef with
        | PSticky sticky =>
            (<[routeRef := sticky]> acc,
             if js_truthy (props_path node) then PRef routeRef else parentRouteRef)
        | _ => (<[routeRef := parentRouteRef]> acc, PRef routeRef)
        end
    | None => (acc, parentRouteRef)
    end in
  if js_truthy_bool (getComponentData_gatherMountPoints node)
  then Ok (acc', PSticky nextParent)
  else Ok (acc', nextParent).

(** ** [routeObjectCollector] (lines 112-140) *)

(** Arrays of route objects are mutable and shared: the object pushed at
    line 128 holds the very array the reducer returns as the context of
    the node's children.  An array is named by its address in the heap. *)
Abbreviation Loc := nat (only parsing).

(** The object literal of lines 128-134; its [element] is always [null]. *)
Record Cell : Type := mkCell {
  cell_caseSensitive : bool;
  cell_path : string;
  cell_routeRef : RouteRef;
  cell_children : Loc
}.

Abbreviation Heap := (list (list Cell)) (only parsing).

(** [const children = []]: a fresh array, at the next free address. *)
Definition alloc (h : Heap) : Heap * Loc := (h ++ [[]], length h).

(** [arr.push(c)].  An address handed out by [alloc] is always in range;
    outside the range (which no reference can be) nothing changes. *)
Definition push (l : Loc) (c : Cell) (h : Heap) : Heap :=
  alter (λ arr, arr ++ [c]) l h.

Definition routeObjectCollector_visit
    (acc : Loc) (h : Heap) (node : Node) (parent : option Node)
    (ctx : option Loc) : Result (Heap * option Loc) :=
  (* default parameter: [parentChildArr = acc] *)
  let parentChildArr := default acc ctx in
  if is_alias parent node then Ok (h, Some parentChildArr) else
  let path := props_path node in
  let caseSensitive := js_truthy_bool (props_caseSensitive node) in
  match getMountPoint node with
  | Some routeRef =>
      let '(h1, children) := alloc h in
      match path with
      | Some (String a s) =>
          Ok (push parentChildArr
                (mkCell caseSensitive (String a s) routeRef children) h1,
              Some children)
      | _ => Err (MissingRouteObjectPath routeRef)
      end
  | None => Ok (h, Some parentChildArr)
  end.

(** ** The traversal engine *)

(** Modelled from the spec: [createCollector] and the traversal of
    [../extensions/traversal] are not part of the sources at hand.  A
    collector is "initial-accumulator factory + per-node reducer"; the
    engine performs "a depth-first preorder walk starting at the root with
    contextIn = initial context (undefined ...)", calls the reducer "once
    per visited node with the node, its structural parent (or absent for the
    root), and the context value produced by the parent's reducer call", and
    "errors abort the entire traversal immediately". *)
Record Collector (St Ctx : Type) : Type := createCollector {
  accumulatorFactory : St;
  undefinedCtx : Ctx;
  visit : St -> Node -> option Node -> Ctx -> Result (St * Ctx)
}.
Arguments createCollector {St Ctx} _ _ _.
Arguments accumulatorFactory {St Ctx} _.
Arguments undefinedCtx {St Ctx} _.
Arguments visit {St Ctx} _ _ _ _ _.

Section Traversal.
Context {St Ctx : Type}.
Variable c : Collector St Ctx.

Fixpoint traverse (node : Node) (parent : option Node) (ctx : Ctx) (st : St)
    : Result St :=
  match visit c st node parent ctx with
  | Err e => Err e
  | Ok (st', ctx') =>
      match node with
      | mkNode _ _ _ _ _ _ cs =>
          (fix each (cs : list Node) (s : St) {struct cs} : Result St :=
             match cs with
             | [] => Ok s
             | child :: rest =>
                 match traverse child (Some node) ctx' s with
                 | Err e => Err e
                 | Ok s' => each rest s'
                 end
             end) cs st'
      end
  end.

(** The walk over a sequence of siblings, all under [parent] and all
    receiving the context [ctx]. *)
Fixpoint traverse_each (cs : list Node) (parent : option Node) (ctx : Ctx)
    (st : St) : Result St :=
  match cs with
  | [] => Ok st
  | child :: rest =>
      match traverse child parent ctx st with
      | Err e => Err e
      | Ok st' => traverse_each rest parent ctx st'
      end
  end.

Definition collect (root : Node) : Result St :=
  traverse root None (undefinedCtx c) (accumulatorFactory c).
End Traversal.

(** The three collectors as they are registered.  [new Map()] is the empty
    map; [Array()] is a fresh array, the first of the heap, so the
    accumulator of [routeObjectCollector] is the address [0]. *)
Definition routePathCollector : Collector (gmap RouteRef string) (option string) :=
  createCollector ∅ None routePathCollector_visit.

Definition routeParentCollector : Collector (gmap RouteRef ParentValue) ParentValue :=
  createCollector ∅ PUndefined routeParentCollector_visit.

Definition acc_array : Loc := snd (alloc []).

Definition routeObjectCollector : Collector Heap (option Loc) :=
  createCollector (fst (alloc [])) None (routeObjectCollector_visit acc_array).

(** ** Reading the result of [routeObjectCollector] *)

(** [BackstageRouteObject] as a value: what a caller sees when it follows
    the [children] references from the returned array. *)
#[local] Unset Elimination Schemes.
Inductive BackstageRouteObject : Type :=
  mkRouteObject (caseSensitive : bool) (path : string) (routeRef : RouteRef)
                (children : list BackstageRouteObject).
#[local] Set Elimination Schemes.

Definition ro_children (o : BackstageRouteObject) : list BackstageRouteObject :=
  match o with mkRouteObject _ _ _ cs => cs end.

(** Following the references of the heap from the array at [l].  The fuel
    bounds the nesting depth that is followed. *)
Fixpoint readback (fuel : nat) (h : Heap) (l : Loc)
    : option (list BackstageRouteObject) :=
  match fuel with
  | 0 => None
  | S fuel' =>
      match h !! l with
      | None => None
      | Some cells =>
          mapM (λ c, match readback fuel' h (cell_children c) with
                     | Some kids =>
                         Some (mkRouteObject (cell_caseSensitive c) (cell_path c)
                                 (cell_routeRef c) kids)
                     | None => None
                     end) cells
      end
  end.

(** The array a run of [routeObjectCollector] returns, read from the final
    heap.  Every route object has an array of its own, so the nesting is
    never deeper than the number of arrays, which is fuel enough. *)
Definition routeObjects (h : Heap) : option (list BackstageRouteObject) :=
  readback (length h) h acc_array.

(** ** Predicates on trees *)

(** [P parent node] at every node of the tree, with its structural parent. *)
Fixpoint all_nodes (P : option Node -> Node -> bool) (parent : option Node)
    (node : Node) : bool :=
  P parent node &&
  match node with
  | mkNode _ _ _ _ _ _ cs => forallb (all_nodes P (Some node)) cs
  end.

(** No node of the tree resolves to a routeRef. *)
Definition not_a_mount_point (parent : option Node) (n : Node) : bool :=
  bool_decide (getMountPoint n = None).

Definition no_mount_points (root : Node) : bool :=
  all_nodes not_a_mount_point None root.

Definition any_node (parent : option Node) (n : Node) : bool := true.

(** Every node the path reducer is run on that carries the gathering flag
    has a path. *)
Definition gatherer_has_path (parent : option Node) (n : Node) : bool :=
  is_alias parent n
  || negb (js_truthy_bool (getComponentData_gatherMountPoints n))
  || js_truthy (props_path n).

(** Every mount point the object reducer is run on has a path. *)
Definition mount_point_has_path (parent : option Node) (n : Node) : bool :=
  is_alias parent n
  || bool_decide (getMountPoint n = None)
  || js_truthy (props_path n).

(** ** The nesting the specification asks of the route objects *)

(** Section 4.4 in the words of the spec: a node that is not a mount point
    (or whose reducer is skipped) is transparent, its route objects are
    those of its children, in document order; a mount point yields one
    route object whose children are the route objects found below it. *)
Fixpoint nested_routes (parent : option Node) (node : Node)
    : list BackstageRouteObject :=
  match node with
  | mkNode _ p cs _ _ _ ch =>
      let below := flat_map (nested_routes (Some node)) ch in
      if is_alias parent node then below else
      match getMountPoint node with
      | Some r => [mkRouteObject (js_truthy_bool cs) (default EmptyString p) r below]
      | None => below
      end
  end.

(** Number of route objects, and nesting depth, of a sequence. *)
Fixpoint ro_size (o : BackstageRouteObject) : nat :=
  match o with
  | mkRouteObject _ _ _ cs => S (list_sum (map ro_size cs))
  end.

Fixpoint ro_depth (o : BackstageRouteObject) : nat :=
  match o with
  | mkRouteObject _ _ _ cs => S (foldr Nat.max 0 (map ro_depth cs))
  end.

Definition forest_size (os : list BackstageRouteObject) : nat :=
  list_sum (map ro_size os).
Definition forest_depth (os : list BackstageRouteObject) : nat :=
  foldr Nat.max 0 (map ro_depth os).

(** ** Heaps during a run *)

(** One object of an array, read with its children. *)
Definition read_cell (fuel : nat) (h : Heap) (c : Cell)
    : option BackstageRouteObject :=
  match readback fuel h (cell_children c) with
  | Some kids =>
      Some (mkRouteObject (cell_caseSensitive c) (cell_path c) (cell_routeRef c) kids)
  | None => None
  end.

(** [cells] were pushed by a walk that started when the heap had [base]
    arrays and that created the arrays [tail]: they read as [os] in every
    heap that has [tail] at the addresses from [base] on, whatever the
    arrays before and after hold, given fuel for the depth of [os]. *)
Definition reads_as (base : nat) (tail : Heap) (cells : list Cell)
    (os : list BackstageRouteObject) : Prop :=
  ∀ before after fuel,
    length before = base →
    forest_depth os ≤ fuel →
    Forall2 (λ c o, read_cell fuel (before ++ tail ++ after) c = Some o) cells os.

(** The heap after a walk that pushed [cells] to the array [l] and created
    the arrays [tail]. *)
Definition grown (h : Heap) (l : Loc) (cells : list Cell) (tail : Heap) : Heap :=
  alter (λ arr, arr ++ cells) l h ++ tail.

(** The run on a tree, and on a sequence of siblings, in which every mount
    point has a path. *)
Definition walk_spec (n : Node) : Prop :=
  ∀ parent ctx h,
    default acc_array ctx < length h →
    all_nodes mount_point_has_path parent n = true →
    ∃ cells tail,
      traverse routeObjectCollector n parent ctx h
        = Ok (grown h (default acc_array ctx) cells tail) ∧
      reads_as (length h) tail cells (nested_routes parent n) ∧
      length tail = forest_size (nested_routes parent n).

(** ** Sample elements *)

(** [<Gather path=... />]-like elements used by the examples below.  Route
    refs are [7], [8], [9]; node identities are the first field. *)
Definition sample_path_a : string := "/a".
Definition sample_path_b : string := "/b".
Definition sample_path_c : string := "/c".
Definition sample_path_d : string := "/d".

(** A gathering node that is also a mount point (ref 7) and has no path. *)
Definition gatherer_mount_without_path : Node :=
  mkNode 1 None None None (Some 7) (Some true) [].

(** A gathering node that is also a mount point (ref 7), with path "/a". *)
Definition gatherer_mount_with_path : Node :=
  mkNode 1 (Some sample_path_a) None None (Some 7) (Some true) [].

(** A plain mount point (ref 8) with path "/b". *)
Definition mount_with_path : Node :=
  mkNode 2 (Some sample_path_b) None None (Some 8) None [].

(** A plain mount point (ref 8) without a path. *)
Definition mount_without_path : Node :=
  mkNode 2 None None None (Some 8) None [].

(** [<Route element={e}>e</Route>]: the element is also discovered as a
    child, which is the case the alias test is there for. *)
Definition route_with_element (e : Node) : Node :=
  mkNode 3 None None (Some e) None None [e].

(** Two gathering nodes, one inside the other, around a mount point (ref 9);
    none of the three has a path. *)
Definition nested_gatherers : Node :=
  mkNode 1 None None None None (Some true)
    [mkNode 2 None None None None (Some true)
       [mkNode 3 None None None (Some 9) None []]].

(** A gathering node without a path, and no mount point anywhere. *)
Definition lone_gatherer_without_path : Node :=
  mkNode 1 None None None None (Some true) [].

(** A gathering node with a path over two plain elements. *)
Definition gatherer_over_plain_nodes : Node :=
  mkNode 1 (Some sample_path_a) None None None (Some true)
    [mkNode 2 None None None None None []; mkNode 3 None (Some true) None None None []].

(** A mount point (ref 7, "/a") over a mount point (ref 8, "/b") that sits
    two plain nodes deeper, followed by two more mount points (9 and 10)
    that are its direct children. *)
Definition nested_mount_points : Node :=
  mkNode 1 (Some sample_path_a) None None (Some 7) None
    [mkNode 2 None None None None None
       [mkNode 3 None None None None None
          [mkNode 4 (Some sample_path_b) (Some true) None (Some 8) None []]];
     mkNode 5 (Some sample_path_c) None None (Some 9) None [];
     mkNode 6 (Some sample_path_d) None None (Some 10) None []].

(** ** Document order *)

(** What the nodes of a tree contribute, node by node, in the order the
    engine visits them: a node first, then its children from left to
    right. *)
Fixpoint preorder {A : Type} (item : option Node -> Node -> list A)
    (parent : option Node) (node : Node) : list A :=
  item parent node ++
  match node with
  | mkNode _ _ _ _ _ _ ch => flat_map (preorder item (Some node)) ch
  end.

(** The routeRef of a node on which the reducers run past their alias test
    and which [getMountPoint] resolves. *)
Definition visited_mount_point (parent : option Node) (n : Node) : list RouteRef :=
  if is_alias parent n then [] else
  match getMountPoint n with
  | Some r => [r]
  | None => []
  end.

Definition visited_mount_points : option Node -> Node -> list RouteRef :=
  preorder visited_mount_point.

(** The same, kept only when the node has no path. *)
Definition pathless_mount_point (parent : option Node) (n : Node) : list RouteRef :=
  if is_alias parent n then [] else
  match getMountPoint n with
  | Some r => if js_truthy (props_path n) then [] else [r]
  | None => []
  end.

Definition pathless_mount_points : option Node -> Node -> list RouteRef :=
  preorder pathless_mount_point.

(** The routeRef of such a node with the node's own path. *)
Definition own_path_entry (parent : option Node) (n : Node)
    : list (RouteRef * string) :=
  if is_alias parent n then [] else
  match getMountPoint n with
  | Some r => [(r, default EmptyString (props_path n))]
  | None => []
  end.

(** [map.set(k, v)] for each pair of a list, from left to right. *)
Definition set_all {V : Type} (acc : gmap RouteRef V) (l : list (RouteRef * V))
    : gmap RouteRef V :=
  foldl (λ m e, <[e.1 := e.2]> m) acc l.

(** [map.set(k, v)] with one value for each key of a list. *)
Definition set_each {V : Type} (v : V) (acc : gmap RouteRef V) (l : list RouteRef)
    : gmap RouteRef V :=
  foldl (λ m r, <[r := v]> m) acc l.

(** ** Route objects as lists of entries *)

(** The routeRefs of a route object and of the objects nested in it, the
    object first. *)
Fixpoint ro_refs (o : BackstageRouteObject) : list RouteRef :=
  match o with
  | mkRouteObject _ _ r kids => r :: flat_map ro_refs kids
  end.

(** Each routeRef with the path of its route object. *)
Fixpoint ro_paths (o : BackstageRouteObject) : list (RouteRef * string) :=
  match o with
  | mkRouteObject _ p r kids => (r, p) :: flat_map ro_paths kids
  end.

(** Each routeRef with the routeRef of the object it is nested in; [top]
    for the objects of the outermost array. *)
Fixpoint ro_parents (top : ParentValue) (o : BackstageRouteObject)
    : list (RouteRef * ParentValue) :=
  match o with
  | mkRouteObject _ _ r kids => (r, top) :: flat_map (ro_parents (PRef r)) kids
  end.

(** ** More predicates on trees *)

(** The reducers do not see a gathering flag on the node. *)
Definition not_a_gatherer (parent : option Node) (n : Node) : bool :=
  is_alias parent n
  || negb (js_truthy_bool (getComponentData_gatherMountPoints n)).

(** The reducers see neither a gathering flag nor a path on the node. *)
Definition plain_without_path (parent : option Node) (n : Node) : bool :=
  is_alias parent n
  || (negb (js_truthy_bool (getComponentData_gatherMountPoints n))
      && negb (js_truthy (props_path n))).

(** No gathering node below another gathering node; [inside] tells whether
    a gathering node has been passed on the way down. *)
Fixpoint gatherers_not_nested (inside : bool) (parent : option Node) (node : Node)
    : bool :=
  match node with
  | mkNode _ _ _ _ _ g ch =>
      if is_alias parent node then
        forallb (gatherers_not_nested inside (Some node)) ch
      else if js_truthy_bool g then
        negb inside && forallb (gatherers_not_nested true (Some node)) ch
      else forallb (gatherers_not_nested inside (Some node)) ch
  end.

(** A context of the parent reducer that wraps at most once. *)
Definition flat_context (v : ParentValue) : bool :=
  match v with
  | PSticky inner => negb (is_sticky inner)
  | _ => true
  end.

(** Arrays are only ever appended to: every array of [h] is still there in
    [h'], with the objects it had at the front. *)
Definition append_only (h h' : Heap) : Prop :=
  ∀ l arr, h !! l = Some arr → ∃ more, h' !! l = Some (arr ++ more).

(** ** Induction on trees *)

Section NodeInduction.
Variable P : Node -> Prop.
Hypothesis step : ∀ n, Forall P (children n) → P n.

Fixpoint Node_ind (n : Node) : P n :=
  step n
    (match n return Forall P (children n) with
     | mkNode _ _ _ _ _ _ cs =>
         (fix all (l : list Node) : Forall P l :=
            match l with
            | [] => Lists.List.Forall_nil P
            | x :: r => @Lists.List.Forall_cons _ P x r (Node_ind x) (all r)
            end) cs
     end).
End NodeInduction.

Section RouteObjectInduction.
Variable P : BackstageRouteObject -> Prop.
Hypothesis step : ∀ o, Forall P (ro_children o) → P o.

Fixpoint BackstageRouteObject_ind (o : BackstageRouteObject) : P o :=
  step o
    (match o return Forall P (ro_children o) with
     | mkRouteObject _ _ _ cs =>
         (fix all (l : list BackstageRouteObject) : Forall P l :=
            match l with
            | [] => Lists.List.Forall_nil P
            | x :: r => @Lists.List.Forall_cons _ P x r (BackstageRouteObject_ind x) (all r)
            end) cs
     end).
End RouteObjectInduction.

(** [<Route path="/c" element={a}>a</Route>] where the route carries the
    mount point 5 and its element [a] the mount point 7 (path "/a"); below
    [a] sits the mount point 8 (path "/b"). *)
Definition mount_below_alias : Node :=
  mkNode 3 (Some sample_path_b) None None (Some 8) None [].

Definition aliased_mount_point : Node :=
  mkNode 2 (Some sample_path_a) None None (Some 7) None [mount_below_alias].

Definition route_over_aliased_mount_point : Node :=
  mkNode 1 (Some sample_path_c) None (Some aliased_mount_point) (Some 5) None
    [aliased_mount_point].

(** The scenario of the specification: a plain root over a gathering node
    with path "/a", over a mount point (ref 7) without a path, over a mount
    point (ref 8) with path "/b". *)
Definition gathering_scenario : Node :=
  mkNode 1 None None None None None
    [mkNode 2 (Some sample_path_a) None None None (Some true)
       [mkNode 3 None None None (Some 7) None
          [mkNode 4 (Some sample_path_b) None None (Some 8) None []]]].

(** * Properties *)

(** ** The engine, unfolded *)

Section TraversalFacts.
Context {St Ctx : Type}.
Variable c : Collector St Ctx.

Lemma traverse_unfold node parent ctx st :
  traverse c node parent ctx st =
  match visit c st node parent ctx with
  | Err e => Err e
  | Ok (st', ctx') => traverse_each c (children node) (Some node) ctx' st'
  end.
Proof.
  destruct node as [i p cs e m g ch]; simpl.
  destruct (visit c st _ parent ctx) as [[st' ctx']|err]; [|done].
  generalize (mkNode i p cs e m g ch) as nd.
  intros nd. revert st'.
  induction ch as [|x r IH]; intros st'; simpl; [done|].
  destruct (traverse c x (Some nd) ctx' st'); [apply IH|done].
Qed.

Lemma traverse_each_app l1 l2 parent ctx st :
  traverse_each c (l1 ++ l2) parent ctx st =
  match traverse_each c l1 parent ctx st with
  | Err e => Err e
  | Ok st' => traverse_each c l2 parent ctx st'
  end.
Proof.
  revert st. induction l1 as [|x r IH]; intros st; simpl; [done|].
  destruct (traverse c x parent ctx st); [apply IH|done].
Qed.
End TraversalFacts.

(** ** The alias test *)

Lemma routePath_visit_alias acc node parent ctx :
  is_alias parent node = true →
  routePathCollector_visit acc node parent ctx = Ok (acc, ctx).
Proof. intros H. unfold routePathCollector_visit. by rewrite H. Qed.

Lemma routeParent_visit_alias acc node parent ctx :
  is_alias parent node = true →
  routeParentCollector_visit acc node parent ctx = Ok (acc, ctx).
Proof. intros H. unfold routeParentCollector_visit. by rewrite H. Qed.

Lemma routeObject_visit_alias a h node parent ctx :
  is_alias parent node = true →
  routeObjectCollector_visit a h node parent ctx = Ok (h, Some (default a ctx)).
Proof. intros H. unfold routeObjectCollector_visit. by rewrite H. Qed.

(** C8.  A reducer call on a node that is the [element] of its structural
    parent leaves the accumulator as it is and returns the context it was
    given, in each of the three collectors.  For the route-object reducer the
    context given is the array [parentChildArr], which is the accumulator
    array when no array is passed (the default parameter of line 114); with
    an array passed, that very array is returned. *)
Theorem alias_suppression_is_a_frame node parent :
  is_alias parent node = true →
  (∀ acc ctx, routePathCollector_visit acc node parent ctx = Ok (acc, ctx)) ∧
  (∀ acc ctx, routeParentCollector_visit acc node parent ctx = Ok (acc, ctx)) ∧
  (∀ a h ctx,
     routeObjectCollector_visit a h node parent ctx = Ok (h, Some (default a ctx))) ∧
  (∀ a h arr,
     routeObjectCollector_visit a h node parent (Some arr) = Ok (h, Some arr)).
Proof.
  intros H. repeat split; intros.
  - by apply routePath_visit_alias.
  - by apply routeParent_visit_alias.
  - by apply routeObject_visit_alias.
  - by rewrite routeObject_visit_alias.
Qed.

Lemma alias_suppression_is_a_frame_witness :
  is_alias (Some (route_with_element mount_with_path)) mount_with_path = true ∧
  routePathCollector_visit ∅ mount_with_path
    (Some (route_with_element mount_with_path)) (Some sample_path_a)
  = Ok (∅, Some sample_path_a).
Proof.
  split; [reflexivity|].
  apply (alias_suppression_is_a_frame mount_with_path
           (Some (route_with_element mount_with_path))).
  reflexivity.
Defined.

(** ** Route-Path reducer *)

Lemma js_truthy_Some_inv v :
  js_truthy v = true → ∃ a s, v = Some (String a s).
Proof. destruct v as [[|a s]|]; simpl; intros; try done. by exists a, s. Qed.

(** The reducer on a gathering node that has a path. *)
Lemma routePath_visit_gatherer_with_path acc node parent ctx p :
  is_alias parent node = false →
  js_truthy_bool (getComponentData_gatherMountPoints node) = true →
  props_path node = Some p →
  js_truthy (Some p) = true →
  routePathCollector_visit acc node parent ctx =
  match getMountPoint node with
  | None => Ok (acc, Some p)
  | Some r => Ok (<[r := p]> acc, None)
  end.
Proof.
  intros Ha Hg Hp Ht. unfold routePathCollector_visit. rewrite Ha, Hg, Hp, Ht.
  destruct (js_truthy_Some_inv _ Ht) as (a & s & [= ->]).
  destruct (getMountPoint node); [|done]. by rewrite Ht.
Qed.

(** C4 as stated fails on a mount point that also carries the gathering
    flag and has no path: a context path is active and the node has no own
    path, yet the context path is not recorded; the reducer throws at
    line 48. *)
Lemma routePath_gatherer_mount_counterexample :
  is_alias None gatherer_mount_without_path = false ∧
  getMountPoint gatherer_mount_without_path = Some 7 ∧
  js_truthy (Some sample_path_b) = true ∧
  props_path gatherer_mount_without_path = None ∧
  routePathCollector_visit ∅ gatherer_mount_without_path None (Some sample_path_b)
    = Err MissingGatherPath ∧
  routePathCollector_visit ∅ gatherer_mount_without_path None (Some sample_path_b)
    ≠ Ok (<[7 := sample_path_b]> ∅, Some sample_path_b) ∧
  routePathCollector_visit ∅ gatherer_mount_without_path None None
    = Err MissingGatherPath ∧
  routePathCollector_visit ∅ gatherer_mount_without_path None None
    ≠ Err MissingMountPath.
Proof. repeat split; try reflexivity; discriminate. Qed.

(** C4, amended.  For a mount point on which the reducer runs and which
    does not fail the gathering check of lines 45-51 (it carries no gathering
    flag, or it has a path): with a context path and an own path, the own
    path is recorded and the context of the children is cleared; with a
    context path and no own path, the context path is recorded and passed
    on unchanged; without a context path, the own path is recorded; and
    when neither is there the reducer throws [MissingMountPath].  A path is
    there when the code's test [if (path)] sees one. *)
Theorem routePath_mount_point_cases acc node parent ctx r :
  is_alias parent node = false →
  getMountPoint node = Some r →
  (js_truthy_bool (getComponentData_gatherMountPoints node) = true →
   js_truthy (props_path node) = true) →
  (∀ p, js_truthy ctx = true → props_path node = Some p → js_truthy (Some p) = true →
     routePathCollector_visit acc node parent ctx = Ok (<[r := p]> acc, None)) ∧
  (∀ cp, js_truthy ctx = true → ctx = Some cp → js_truthy (props_path node) = false →
     routePathCollector_visit acc node parent ctx = Ok (<[r := cp]> acc, ctx)) ∧
  (∀ p, js_truthy ctx = false → props_path node = Some p → js_truthy (Some p) = true →
     ∃ ctx', routePathCollector_visit acc node parent ctx = Ok (<[r := p]> acc, ctx')) ∧
  (js_truthy ctx = false → js_truthy (props_path node) = false →
     routePathCollector_visit acc node parent ctx = Err MissingMountPath).
Proof.
  intros Ha Hm Hg. unfold routePathCollector_visit. rewrite Ha, Hm.
  repeat split.
  - intros p Hc Hp Ht. rewrite Hp, Ht.
    destruct (js_truthy_Some_inv _ Ht) as (a & s & [= ->]).
    destruct (js_truthy_bool _); simpl; [done|]. by rewrite Hc.
  - intros cp Hc -> Hp. rewrite Hp.
    destruct (js_truthy_bool _); [specialize (Hg eq_refl); congruence|].
    rewrite Hc. destruct cp; done.
  - intros p Hc Hp Ht. rewrite Hp, Ht.
    destruct (js_truthy_Some_inv _ Ht) as (a & s & [= ->]).
    destruct (js_truthy_bool _); simpl; [by eexists|].
    rewrite Hc. by eexists.
  - intros Hc Hp. rewrite Hp.
    destruct (js_truthy_bool _); [specialize (Hg eq_refl); congruence|].
    rewrite Hc. destruct (props_path node) as [[|]|]; done.
Qed.

Lemma routePath_mount_point_cases_witness :
  routePathCollector_visit ∅ mount_with_path None (Some sample_path_a)
  = Ok (<[8 := sample_path_b]> ∅, None).
Proof.
  apply (routePath_mount_point_cases ∅ mount_with_path None (Some sample_path_a) 8);
    reflexivity || discriminate.
Defined.

(** C6 as stated fails on a gathering node that is also a mount point: it
    has a path, yet the context its children get is not that path. *)
Lemma routePath_gatherer_context_counterexample :
  is_alias None gatherer_mount_with_path = false ∧
  js_truthy_bool (getComponentData_gatherMountPoints gatherer_mount_with_path) = true ∧
  props_path gatherer_mount_with_path = Some sample_path_a ∧
  routePathCollector_visit ∅ gatherer_mount_with_path None None
    = Ok (<[7 := sample_path_a]> ∅, None) ∧
  (None : option string) ≠ Some sample_path_a.
Proof. repeat split; try reflexivity. discriminate. Qed.

(** C6, amended.  For a node on which the reducer runs and which carries
    the gathering flag: without a path the reducer throws
    [MissingGatherPath]; with a path, that path is the current context
    path, which the children get when the node is not a mount point; when
    it is a mount point the path is recorded for its routeRef and the
    children get no context path. *)
Theorem routePath_gatherer acc node parent ctx :
  is_alias parent node = false →
  js_truthy_bool (getComponentData_gatherMountPoints node) = true →
  (js_truthy (props_path node) = false →
     routePathCollector_visit acc node parent ctx = Err MissingGatherPath) ∧
  (∀ p, props_path node = Some p → js_truthy (Some p) = true →
     routePathCollector_visit acc node parent ctx =
     match getMountPoint node with
     | None => Ok (acc, Some p)
     | Some r => Ok (<[r := p]> acc, None)
     end).
Proof.
  intros Ha Hg. split.
  - intros Hp. unfold routePathCollector_visit. by rewrite Ha, Hg, Hp.
  - intros p Hp Ht. by apply routePath_visit_gatherer_with_path.
Qed.

Lemma routePath_gatherer_witness :
  routePathCollector_visit ∅ gatherer_mount_without_path None (Some sample_path_b)
  = Err MissingGatherPath.
Proof.
  apply (routePath_gatherer ∅ gatherer_mount_without_path None (Some sample_path_b));
    reflexivity.
Defined.

(** C10 as stated fails when the node is the [element] of its parent: the
    reducer returns at line 41, records nothing and passes the context on. *)
Lemma routePath_gatherer_mount_alias_counterexample :
  js_truthy_bool (getComponentData_gatherMountPoints gatherer_mount_with_path) = true ∧
  getMountPoint gatherer_mount_with_path = Some 7 ∧
  props_path gatherer_mount_with_path = Some sample_path_a ∧
  routePathCollector_visit ∅ gatherer_mount_with_path
    (Some (route_with_element gatherer_mount_with_path)) (Some sample_path_b)
  = Ok (∅, Some sample_path_b) ∧
  (∅ : gmap RouteRef string) !! 7 = None.
Proof. repeat split; reflexivity. Qed.

(** C10, amended.  A node on which the reducer runs, which carries the
    gathering flag, is a mount point and has a path: the path is recorded
    for its routeRef and its children get no context path, whatever context
    the node itself was given. *)
Theorem routePath_gatherer_mount_point acc node parent ctx r p :
  is_alias parent node = false →
  js_truthy_bool (getComponentData_gatherMountPoints node) = true →
  getMountPoint node = Some r →
  props_path node = Some p →
  js_truthy (Some p) = true →
  routePathCollector_visit acc node parent ctx = Ok (<[r := p]> acc, None).
Proof.
  intros Ha Hg Hm Hp Ht.
  rewrite (routePath_visit_gatherer_with_path acc node parent ctx p Ha Hg Hp Ht).
  by rewrite Hm.
Qed.

Lemma routePath_gatherer_mount_point_witness :
  routePathCollector_visit ∅ gatherer_mount_with_path None (Some sample_path_b)
  = Ok (<[7 := sample_path_a]> ∅, None).
Proof.
  apply (routePath_gatherer_mount_point ∅ gatherer_mount_with_path None
           (Some sample_path_b) 7 sample_path_a); reflexivity.
Defined.

(** ** Route-Parent reducer *)

(** What the reducer does on a mount point with a path that it meets under
    a sticky context. *)
Lemma routeParent_visit_sticky_with_path acc node parent inner r :
  is_alias parent node = false →
  getMountPoint node = Some r →
  js_truthy (props_path node) = true →
  routeParentCollector_visit acc node parent (PSticky inner) =
  Ok (<[r := inner]> acc,
      if js_truthy_bool (getComponentData_gatherMountPoints node)
      then PSticky (PRef r) else PRef r).
Proof.
  intros Ha Hm Hp. unfold routeParentCollector_visit. rewrite Ha, Hm, Hp.
  by destruct (js_truthy_bool _).
Qed.

(** C2 as stated fails: under the sticky context [{ sticky: undefined }]
    the mount point 8 with path "/b" hands its children the plain routeRef,
    not a sticky value around it. *)
Lemma routeParent_sticky_rebase_counterexample :
  is_alias None mount_with_path = false ∧
  getMountPoint mount_with_path = Some 8 ∧
  js_truthy (props_path mount_with_path) = true ∧
  routeParentCollector_visit ∅ mount_with_path None (PSticky PUndefined)
    = Ok (<[8 := PUndefined]> ∅, PRef 8) ∧
  is_sticky (PRef 8) = false.
Proof. repeat split; reflexivity. Qed.

(** C2, amended.  A mount point with a path on which the reducer runs
    under a sticky context [{ sticky: inner }]: [inner] is recorded as its
    parent, and its children get the plain routeRef of the node, which is
    not sticky; only when the node itself carries the gathering flag is that
    routeRef wrapped again by lines 104-106. *)
Theorem routeParent_sticky_with_path_ends_gathering acc node parent inner r :
  is_alias parent node = false →
  getMountPoint node = Some r →
  js_truthy (props_path node) = true →
  (js_truthy_bool (getComponentData_gatherMountPoints node) = false →
     routeParentCollector_visit acc node parent (PSticky inner)
     = Ok (<[r := inner]> acc, PRef r)) ∧
  (js_truthy_bool (getComponentData_gatherMountPoints node) = true →
     routeParentCollector_visit acc node parent (PSticky inner)
     = Ok (<[r := inner]> acc, PSticky (PRef r))).
Proof.
  intros Ha Hm Hp.
  rewrite (routeParent_visit_sticky_with_path acc node parent inner r Ha Hm Hp).
  split; by intros ->.
Qed.

Lemma routeParent_sticky_with_path_ends_gathering_witness :
  routeParentCollector_visit ∅ mount_with_path None (PSticky (PRef 7))
  = Ok (<[8 := PRef 7]> ∅, PRef 8).
Proof.
  apply (routeParent_sticky_with_path_ends_gathering ∅ mount_with_path None (PRef 7) 8);
    reflexivity.
Defined.

(** The reducer has no [throw]. *)
Lemma routeParent_visit_ok acc node parent ctx :
  ∃ acc' ctx', routeParentCollector_visit acc node parent ctx = Ok (acc', ctx').
Proof.
  unfold routeParentCollector_visit.
  destruct (is_alias parent node); [by eauto|].
  destruct (getMountPoint node) as [r|]; [destruct ctx|];
    destruct (js_truthy_bool _); eauto.
Qed.

(** ** Route-Object reducer *)

(** Whatever the reducer returns as context is an array: the children of
    a node never get an absent context. *)
Lemma routeObject_visit_returns_array a h node parent ctx h' ctx' :
  routeObjectCollector_visit a h node parent ctx = Ok (h', ctx') →
  ∃ arr, ctx' = Some arr.
Proof.
  unfold routeObjectCollector_visit.
  destruct (is_alias parent node); [intros [= _ <-]; eauto|].
  destruct (getMountPoint node) as [r|]; [|intros [= _ <-]; eauto].
  simpl. destruct (props_path node) as [[|]|]; intros [= _ <-]; eauto.
Qed.

(** C5.  On a mount point without a path on which the reducer runs, the
    reducer throws [MissingRouteObjectPath] carrying the routeRef of the
    mount point, whatever the heap, the accumulator and the context are: no
    context stands in for the path. *)
Theorem routeObject_mount_point_needs_own_path a h node parent ctx r :
  is_alias parent node = false →
  getMountPoint node = Some r →
  js_truthy (props_path node) = false →
  routeObjectCollector_visit a h node parent ctx = Err (MissingRouteObjectPath r).
Proof.
  intros Ha Hm Hp. unfold routeObjectCollector_visit. rewrite Ha, Hm. simpl.
  by destruct (props_path node) as [[|]|].
Qed.

Lemma routeObject_mount_point_needs_own_path_witness :
  routeObjectCollector_visit 0 [[]] mount_without_path
    (Some gatherer_mount_with_path) (Some 0)
  = Err (MissingRouteObjectPath 8).
Proof.
  apply (routeObject_mount_point_needs_own_path 0 [[]] mount_without_path
           (Some gatherer_mount_with_path) (Some 0) 8); reflexivity.
Defined.

(** ** Runs of the engine *)

Section TraversalFrames.
Context {St Ctx : Type}.
Variable c : Collector St Ctx.

(** A reducer that never throws gives a run that never fails. *)
Lemma traverse_never_fails :
  (∀ st n p ctx, ∃ st' ctx', visit c st n p ctx = Ok (st', ctx')) →
  ∀ n p ctx st, ∃ st', traverse c n p ctx st = Ok st'.
Proof.
  intros Hv n. induction n as [n IH] using Node_ind. intros p ctx st.
  rewrite traverse_unfold.
  destruct (Hv st n p ctx) as (st1 & ctx1 & ->).
  generalize (Some n) as q. intros q. revert st1.
  induction IH as [|x l Hx _ IHl]; intros st1; simpl; [by eauto|].
  destruct (Hx q ctx1 st1) as [st2 ->]. apply IHl.
Qed.

(** On a tree of nodes [G] where the reducer leaves the state alone on
    the nodes [B] and throws [e] on the others, the run returns the state
    it started from, or fails with [e] when some node is not [B]. *)
Lemma traverse_frame (G B : option Node → Node → bool) (e : Error) :
  (∀ st p n ctx, G p n = true → B p n = true →
     ∃ ctx', visit c st n p ctx = Ok (st, ctx')) →
  (∀ st p n ctx, G p n = true → B p n = false → visit c st n p ctx = Err e) →
  ∀ n p ctx st, all_nodes G p n = true →
    traverse c n p ctx st = if all_nodes B p n then Ok st else Err e.
Proof.
  intros Hok Herr n. induction n as [n IH] using Node_ind.
  intros p ctx st HG. rewrite traverse_unfold.
  assert (G p n = true ∧ forallb (all_nodes G (Some n)) (children n) = true)
    as [HGn HGc] by (destruct n; simpl in *; by apply andb_prop in HG).
  assert (all_nodes B p n = B p n && forallb (all_nodes B (Some n)) (children n))
    as -> by (by destruct n).
  destruct (B p n) eqn:HB; simpl.
  - destruct (Hok st p n ctx HGn HB) as [ctx1 ->].
    clear HGn HB HG. revert HGc IH.
    generalize (Some n) (children n). intros q l HGc IH.
    induction IH as [|x l Hx _ IHl]; simpl in *; [done|].
    apply andb_prop in HGc as [HGx HGl].
    rewrite (Hx q ctx1 st HGx).
    destruct (all_nodes B q x); simpl; [by apply IHl|done].
  - by rewrite (Herr st p n ctx HGn HB).
Qed.
End TraversalFrames.

(** ** Runs of the Route-Parent Collector *)

(** C9.  The reducer of the Route-Parent Collector returns on every input,
    and so does a run on every tree: no path is asked of mount points or of
    gathering nodes. *)
Theorem routeParentCollector_never_throws :
  (∀ acc node parent ctx,
     ∃ acc' ctx', routeParentCollector_visit acc node parent ctx = Ok (acc', ctx')) ∧
  (∀ root, ∃ m, collect routeParentCollector root = Ok m).
Proof.
  split; [apply routeParent_visit_ok|].
  intros root. unfold collect.
  apply (traverse_never_fails routeParentCollector). apply routeParent_visit_ok.
Qed.

(** C1 fails on the code.  The outer gathering node returns
    [{ sticky: undefined }]; the inner one finds no mount point, keeps that
    object as [nextParent] and wraps it again at line 105; the mount point
    below then records [parentRouteRef.sticky], which is the object
    [{ sticky: undefined }], as its parent. *)
Theorem routeParentCollector_records_sticky_object :
  routeParentCollector_visit ∅ nested_gatherers None PUndefined
    = Ok (∅, PSticky PUndefined) ∧
  collect routeParentCollector nested_gatherers
    = Ok (<[9 := PSticky PUndefined]> ∅) ∧
  is_sticky (PSticky PUndefined) = true.
Proof. repeat split; reflexivity. Qed.

(** ** Trees without mount points *)

(** C3 as stated fails for the Route-Path Collector: a tree without mount
    points whose gathering node has no path makes the run fail. *)
Lemma no_mount_points_path_run_counterexample :
  no_mount_points lone_gatherer_without_path = true ∧
  collect routePathCollector lone_gatherer_without_path = Err MissingGatherPath.
Proof. split; reflexivity. Qed.

Lemma routePath_visit_no_mount acc node parent ctx :
  getMountPoint node = None →
  gatherer_has_path parent node = true →
  ∃ ctx', routePathCollector_visit acc node parent ctx = Ok (acc, ctx').
Proof.
  intros Hm Hg. unfold routePathCollector_visit, gatherer_has_path in *.
  destruct (is_alias parent node); [by eauto|]. rewrite Hm.
  destruct (js_truthy_bool _); simpl in *; [rewrite Hg|]; eauto.
Qed.

Lemma routePath_visit_no_gather_path acc node parent ctx :
  gatherer_has_path parent node = false →
  routePathCollector_visit acc node parent ctx = Err MissingGatherPath.
Proof.
  unfold routePathCollector_visit, gatherer_has_path.
  destruct (is_alias parent node); [done|].
  destruct (js_truthy_bool _); [|done]. simpl. by intros ->.
Qed.

Lemma routeParent_visit_no_mount acc node parent ctx :
  getMountPoint node = None →
  ∃ ctx', routeParentCollector_visit acc node parent ctx = Ok (acc, ctx').
Proof.
  intros Hm. unfold routeParentCollector_visit.
  destruct (is_alias parent node); [by eauto|]. rewrite Hm.
  destruct (js_truthy_bool _); eauto.
Qed.

Lemma routeObject_visit_no_mount a h node parent ctx :
  getMountPoint node = None →
  routeObjectCollector_visit a h node parent ctx = Ok (h, Some (default a ctx)).
Proof.
  intros Hm. unfold routeObjectCollector_visit. rewrite Hm.
  by destruct (is_alias parent node).
Qed.

Lemma all_nodes_any parent root : all_nodes any_node parent root = true.
Proof.
  revert parent. induction root as [n IH] using Node_ind. intros q.
  destruct n as [i p cs e m g ch]; simpl in *.
  generalize (Some (mkNode i p cs e m g ch)). intros q'.
  induction IH as [|x l Hx _ IHl]; simpl; [done|]. by rewrite Hx.
Qed.

(** C3, amended.  On a tree without mount points the Route-Parent
    Collector returns the empty map and the Route-Object Collector the empty
    array; the Route-Path Collector returns the empty map when every
    gathering node its reducer runs on has a path, and fails with
    [MissingGatherPath] otherwise. *)
Theorem no_mount_points_empty_results root :
  no_mount_points root = true →
  collect routeParentCollector root = Ok ∅ ∧
  (∃ h, collect routeObjectCollector root = Ok h ∧ routeObjects h = Some []) ∧
  collect routePathCollector root =
    if all_nodes gatherer_has_path None root then Ok ∅ else Err MissingGatherPath.
Proof.
  intros H. unfold no_mount_points in H. repeat split.
  - unfold collect.
    rewrite (traverse_frame routeParentCollector not_a_mount_point any_node
               MissingGatherPath); [by rewrite all_nodes_any| |done|done].
    intros st p n ctx Hn _. apply bool_decide_eq_true in Hn.
    by apply routeParent_visit_no_mount.
  - exists (fst (alloc [])). split; [|reflexivity]. unfold collect.
    rewrite (traverse_frame routeObjectCollector not_a_mount_point any_node
               MissingGatherPath); [by rewrite all_nodes_any| |done|done].
    intros st p n ctx Hn _. apply bool_decide_eq_true in Hn. simpl.
    rewrite routeObject_visit_no_mount; eauto.
  - unfold collect.
    apply (traverse_frame routePathCollector not_a_mount_point gatherer_has_path
             MissingGatherPath); [| |done].
    + intros st p n ctx Hn Hg. apply bool_decide_eq_true in Hn.
      by apply routePath_visit_no_mount.
    + intros st p n ctx _ Hg. by apply routePath_visit_no_gather_path.
Qed.

Lemma no_mount_points_empty_results_witness :
  collect routeParentCollector gatherer_over_plain_nodes = Ok ∅ ∧
  (∃ h, collect routeObjectCollector gatherer_over_plain_nodes = Ok h
        ∧ routeObjects h = Some []) ∧
  collect routePathCollector gatherer_over_plain_nodes =
    if all_nodes gatherer_has_path None gatherer_over_plain_nodes
    then Ok ∅ else Err MissingGatherPath.
Proof.
  apply (no_mount_points_empty_results gatherer_over_plain_nodes). reflexivity.
Defined.

(** ** Runs of the Route-Object Collector *)

Lemma readback_S fuel h l :
  readback (S fuel) h l =
  match h !! l with
  | Some cells => mapM (read_cell fuel h) cells
  | None => None
  end.
Proof. reflexivity. Qed.

Lemma forest_depth_app os1 os2 :
  forest_depth (os1 ++ os2) = forest_depth os1 `max` forest_depth os2.
Proof.
  unfold forest_depth. induction os1 as [|o os1 IH]; simpl; [done|].
  rewrite IH. lia.
Qed.

Lemma forest_size_app os1 os2 :
  forest_size (os1 ++ os2) = forest_size os1 + forest_size os2.
Proof.
  unfold forest_size. induction os1 as [|o os1 IH]; simpl; [done|].
  rewrite IH. lia.
Qed.

Lemma ro_depth_le_size o : ro_depth o ≤ ro_size o.
Proof.
  induction o as [o IH] using BackstageRouteObject_ind.
  destruct o as [cs p r kids]; simpl in *.
  apply le_n_S. induction IH as [|x l Hx _ IHl]; simpl; lia.
Qed.

Lemma forest_depth_le_size os : forest_depth os ≤ forest_size os.
Proof.
  unfold forest_depth, forest_size.
  induction os as [|o os IH]; simpl; [done|].
  pose proof (ro_depth_le_size o). lia.
Qed.

Lemma reads_as_nil base : reads_as base [] [] [].
Proof. intros before after fuel _ _. constructor. Qed.

(** Two walks one after the other. *)
Lemma reads_as_app base t1 t2 c1 c2 os1 os2 :
  reads_as base t1 c1 os1 →
  reads_as (base + length t1) t2 c2 os2 →
  reads_as base (t1 ++ t2) (c1 ++ c2) (os1 ++ os2).
Proof.
  intros H1 H2 before after fuel Hb Hf. rewrite forest_depth_app in Hf.
  apply Forall2_app.
  - rewrite <-(assoc_L (++) t1 t2 after). apply H1; [done|lia].
  - rewrite <-(assoc_L (++) t1 t2 after), (assoc_L (++) before t1).
    apply H2; [rewrite length_app; lia|lia].
Qed.

(** A mount point: its object, and below it what its children pushed into
    the array created for it. *)
Lemma reads_as_mount base kids_cells tail cs p r os :
  reads_as (S base) tail kids_cells os →
  reads_as base (kids_cells :: tail) [mkCell cs p r base] [mkRouteObject cs p r os].
Proof.
  intros H before after fuel Hb Hf.
  unfold forest_depth in Hf. simpl in Hf. fold (forest_depth os) in Hf.
  destruct fuel as [|fuel]; [lia|].
  constructor; [|constructor].
  unfold read_cell. simpl cell_children. rewrite readback_S.
  assert ((before ++ (kids_cells :: tail) ++ after) !! base = Some kids_cells) as ->.
  { rewrite <-Hb. simpl. by rewrite list_lookup_middle. }
  assert (before ++ (kids_cells :: tail) ++ after
          = (before ++ [kids_cells]) ++ tail ++ after) as ->.
  { by rewrite <-(assoc_L (++)). }
  assert (Forall2 (λ c o, read_cell fuel ((before ++ [kids_cells]) ++ tail ++ after) c
                          = Some o) kids_cells os) as HF.
  { apply H; [rewrite length_app; simpl; lia|lia]. }
  apply mapM_Some_2 in HF. by rewrite HF.
Qed.

Lemma grown_nil h l : grown h l [] [] = h.
Proof.
  unfold grown. rewrite (right_id_L [] (++)).
  apply list_alter_id. intros arr. apply (right_id_L [] (++)).
Qed.

Lemma grown_length h l cells tail :
  length (grown h l cells tail) = length h + length tail.
Proof. unfold grown. by rewrite length_app, length_alter. Qed.

Lemma grown_grown h l c1 t1 c2 t2 :
  l < length h →
  grown (grown h l c1 t1) l c2 t2 = grown h l (c1 ++ c2) (t1 ++ t2).
Proof.
  intros Hl. unfold grown.
  rewrite alter_app_l by (by rewrite length_alter).
  rewrite list_alter_alter_eq, <-(assoc_L (++)). f_equal.
  apply list_alter_ext; [|done]. intros arr _. simpl. by rewrite (assoc_L (++)).
Qed.

Lemma grown_push h l c kids tail :
  l < length h →
  grown (push l c (h ++ [[]])) (length h) kids tail = grown h l [c] (kids :: tail).
Proof.
  intros Hl. unfold grown, push.
  rewrite alter_app_l by done.
  rewrite <-(Nat.add_0_r (length h)) at 1.
  rewrite <-(length_alter (λ arr, arr ++ [c]) h l) at 1.
  rewrite alter_app_r. simpl. by rewrite <-(assoc_L (++)).
Qed.

Lemma walk_each_spec ns :
  Forall walk_spec ns →
  ∀ parent l h,
    l < length h →
    forallb (all_nodes mount_point_has_path parent) ns = true →
    ∃ cells tail,
      traverse_each routeObjectCollector ns parent (Some l) h
        = Ok (grown h l cells tail) ∧
      reads_as (length h) tail cells (flat_map (nested_routes parent) ns) ∧
      length tail = forest_size (flat_map (nested_routes parent) ns).
Proof.
  induction 1 as [|n ns Hn _ IH]; intros parent l h Hl Hok; simpl in *.
  - exists [], []. rewrite grown_nil. split; [done|]. split; [apply reads_as_nil|done].
  - apply andb_prop in Hok as [Hok1 Hok2].
    destruct (Hn parent (Some l) h Hl Hok1) as (c1 & t1 & -> & R1 & S1). simpl.
    destruct (IH parent l (grown h l c1 t1)) as (c2 & t2 & -> & R2 & S2);
      [rewrite grown_length; lia|done|].
    exists (c1 ++ c2), (t1 ++ t2). rewrite grown_grown by done.
    split; [done|]. split.
    + apply reads_as_app; [done|]. by rewrite grown_length in R2.
    + rewrite length_app, forest_size_app. lia.
Qed.

Lemma nested_routes_unfold parent n :
  nested_routes parent n =
  let below := flat_map (nested_routes (Some n)) (children n) in
  if is_alias parent n then below else
  match getMountPoint n with
  | Some r =>
      [mkRouteObject (js_truthy_bool (props_caseSensitive n))
         (default EmptyString (props_path n)) r below]
  | None => below
  end.
Proof. by destruct n. Qed.

Lemma all_nodes_unfold P parent n :
  all_nodes P parent n = P parent n && forallb (all_nodes P (Some n)) (children n).
Proof. by destruct n. Qed.

Lemma walk_spec_all n : walk_spec n.
Proof.
  induction n as [n IH] using Node_ind.
  intros parent ctx h Hl Hok.
  rewrite all_nodes_unfold in Hok. apply andb_prop in Hok as [Hn Hc].
  pose proof (walk_each_spec _ IH (Some n)) as Each.
  rewrite traverse_unfold, nested_routes_unfold. simpl visit. cbv zeta.
  unfold mount_point_has_path in Hn.
  destruct (is_alias parent n) eqn:Ha.
  { rewrite routeObject_visit_alias by done. by apply Each. }
  destruct (getMountPoint n) as [r|] eqn:Hm.
  2:{ rewrite routeObject_visit_no_mount by done. by apply Each. }
  simpl in Hn.
  destruct (js_truthy_Some_inv _ Hn) as (a & s & Hp).
  unfold routeObjectCollector_visit. rewrite Ha, Hm, Hp. simpl.
  destruct (Each (length h) (push (default acc_array ctx)
              (mkCell (js_truthy_bool (props_caseSensitive n)) (String a s) r (length h))
              (h ++ [[]]))) as (kids & tail & -> & R & Sz); [|done|].
  { unfold push. rewrite length_alter, length_app. simpl. lia. }
  rewrite grown_push by done.
  eexists _, _. split; [done|]. split.
  - apply reads_as_mount.
    unfold push in R. rewrite length_alter, length_app in R. simpl in R.
    by rewrite Nat.add_1_r in R.
  - simpl. rewrite Sz. unfold forest_size. simpl. lia.
Qed.

(** What [nested_routes] says, case by case. *)
Lemma nested_routes_transparent parent n :
  getMountPoint n = None →
  nested_routes parent n = flat_map (nested_routes (Some n)) (children n).
Proof.
  intros Hm. rewrite nested_routes_unfold, Hm. simpl.
  by destruct (is_alias parent n).
Qed.

Lemma nested_routes_mount_point parent n r p :
  is_alias parent n = false →
  getMountPoint n = Some r →
  props_path n = Some p →
  nested_routes parent n =
  [mkRouteObject (js_truthy_bool (props_caseSensitive n)) p r
     (flat_map (nested_routes (Some n)) (children n))].
Proof.
  intros Ha Hm Hp. by rewrite nested_routes_unfold, Ha, Hm, Hp.
Qed.

Lemma nested_routes_siblings parent (before after : list Node) :
  flat_map (nested_routes parent) (before ++ after) =
  flat_map (nested_routes parent) before ++ flat_map (nested_routes parent) after.
Proof. apply flat_map_app. Qed.

(** C7 as stated fails on a mount point that is the [element] of its
    structural parent: the reducer returns at line 116 and pushes no object
    for it.  The node with ref 7 is a mount point and the mount point 8 is
    its child, with nothing between them; yet the result has no object for
    7, and the object of 8 sits among the children of the object of 5. *)
Lemma routeObjectCollector_alias_mount_point_counterexample :
  children route_over_aliased_mount_point = [aliased_mount_point] ∧
  children aliased_mount_point = [mount_below_alias] ∧
  getMountPoint aliased_mount_point = Some 7 ∧
  getMountPoint mount_below_alias = Some 8 ∧
  is_alias (Some route_over_aliased_mount_point) aliased_mount_point = true ∧
  (∃ h, collect routeObjectCollector route_over_aliased_mount_point = Ok h ∧
        routeObjects h
        = Some [mkRouteObject false sample_path_c 5
                  [mkRouteObject false sample_path_b 8 []]]) ∧
  existsb (Nat.eqb 7)
    (flat_map ro_refs
       [mkRouteObject false sample_path_c 5
          [mkRouteObject false sample_path_b 8 []]]) = false.
Proof.
  repeat split; try reflexivity.
  eexists. split; reflexivity.
Qed.

(** C7, amended.  The mount points that count are those the reducer runs
    on, the nodes that are not the [element] of their structural parent; a
    node that is, mount point or not, gets no object and adds no level.
    When every mount point the reducer runs on has a path, the run of the
    Route-Object Collector succeeds and the array it returns is
    [nested_routes] of the tree: the object of such a mount point holds, as
    its children and in document order, the objects of the mount points
    found below it through nodes that push nothing, however many these are;
    a node that is not a mount point adds no level. *)
Theorem routeObjectCollector_mirrors_nesting root :
  all_nodes mount_point_has_path None root = true →
  ∃ h, collect routeObjectCollector root = Ok h ∧
       routeObjects h = Some (nested_routes None root).
Proof.
  intros Hok.
  destruct (walk_spec_all root None None [[]]) as (cells & tail & Hrun & R & Sz);
    [unfold acc_array; simpl; lia|done|].
  exists (grown [[]] (default acc_array None) cells tail). split; [exact Hrun|].
  unfold routeObjects, grown. simpl.
  apply mapM_Some_2.
  specialize (R [cells] [] (length tail)).
  rewrite (right_id_L [] (++)) in R. simpl in R.
  apply R; [done|]. rewrite Sz. apply forest_depth_le_size.
Qed.

Lemma routeObjectCollector_mirrors_nesting_witness :
  ∃ h, collect routeObjectCollector nested_mount_points = Ok h ∧
       routeObjects h = Some (nested_routes None nested_mount_points).
Proof.
  apply (routeObjectCollector_mirrors_nesting nested_mount_points). reflexivity.
Defined.

Example nested_mount_points_routes :
  nested_routes None nested_mount_points =
  [mkRouteObject false sample_path_a 7
     [mkRouteObject true sample_path_b 8 [];
      mkRouteObject false sample_path_c 9 [];
      mkRouteObject false sample_path_d 10 []]].
Proof. reflexivity. Qed.

Example nested_mount_points_run :
  collect routeObjectCollector nested_mount_points =
  Ok [[mkCell false sample_path_a 7 1];
      [mkCell true sample_path_b 8 2;
       mkCell false sample_path_c 9 3;
       mkCell false sample_path_d 10 4];
      []; []; []].
Proof. reflexivity. Qed.

Section TraversalFailures.
Context {St Ctx : Type}.
Variable c : Collector St Ctx.
Variable E : Error → Prop.
Hypothesis visit_errors : ∀ st n p ctx e, visit c st n p ctx = Err e → E e.

(** A run fails only with an error of the reducer. *)
Lemma traverse_errors n :
  ∀ p ctx st e, traverse c n p ctx st = Err e → E e.
Proof.
  induction n as [n IH] using Node_ind. intros p ctx st e.
  rewrite traverse_unfold.
  destruct (visit c st n p ctx) as [[st1 ctx1]|e1] eqn:Hv.
  - clear Hv. generalize (Some n). intros q. revert st1.
    induction IH as [|x l Hx _ IHl]; intros st1; simpl; [done|].
    destruct (traverse c x q ctx1 st1) as [st2|e2] eqn:Hx1.
    + apply IHl.
    + intros [= <-]. by eapply Hx.
  - intros [= <-]. by eapply visit_errors.
Qed.

(** A run over a tree with a node on which the reducer throws fails. *)
Lemma traverse_fails (B : option Node → Node → bool) :
  (∀ st p n ctx, B p n = false → is_ok (visit c st n p ctx) = false) →
  ∀ n p ctx st, all_nodes B p n = false →
    ∃ e, traverse c n p ctx st = Err e ∧ E e.
Proof.
  intros HB n. induction n as [n IH] using Node_ind. intros p ctx st Hn.
  destruct (traverse c n p ctx st) as [st'|e] eqn:Ht.
  2:{ exists e. split; [done|]. by eapply traverse_errors. }
  exfalso. rewrite traverse_unfold in Ht.
  assert (all_nodes B p n = B p n && forallb (all_nodes B (Some n)) (children n))
    as Hu by (by destruct n).
  rewrite Hu in Hn. clear Hu.
  destruct (visit c st n p ctx) as [[st1 ctx1]|e1] eqn:Hv; [|done].
  destruct (B p n) eqn:HBn.
  2:{ specialize (HB st p n ctx HBn). by rewrite Hv in HB. }
  simpl in Hn. clear Hv HBn. revert Hn Ht. generalize (Some n). intros q.
  revert st1.
  induction IH as [|x l Hx _ IHl]; intros st1; simpl; [done|].
  intros Hn.
  destruct (traverse c x q ctx1 st1) as [st2|e2] eqn:Hx1; [|done].
  destruct (all_nodes B q x) eqn:HBx; simpl in Hn.
  - by apply IHl.
  - destruct (Hx q ctx1 st1 HBx) as (e & He & _). congruence.
Qed.
End TraversalFailures.

(** A run of the Route-Object Collector over a tree in which some mount
    point has no path fails, with [MissingRouteObjectPath]. *)
Lemma routeObjectCollector_run_fails root :
  all_nodes mount_point_has_path None root = false →
  ∃ r, collect routeObjectCollector root = Err (MissingRouteObjectPath r).
Proof.
  intros H. unfold collect.
  destruct (traverse_fails routeObjectCollector
              (λ e, ∃ r, e = MissingRouteObjectPath r)) with
    (B := mount_point_has_path) (n := root) (p := @None Node)
    (ctx := undefinedCtx routeObjectCollector)
    (st := accumulatorFactory routeObjectCollector) as (e & He & r & ->);
    [| |done|by exists r].
  - intros st n p ctx e. simpl. unfold routeObjectCollector_visit.
    destruct (is_alias p n); [done|].
    destruct (getMountPoint n) as [r|]; [|done]. simpl.
    destruct (props_path n) as [[|]|]; intros [= <-]; by exists r.
  - intros st p n ctx. simpl. unfold mount_point_has_path, routeObjectCollector_visit.
    destruct (is_alias p n); [done|].
    destruct (getMountPoint n) as [r|]; [|done]. simpl.
    by destruct (props_path n) as [[|]|].
Qed.

(** ** The gathering scenario *)

Example gathering_scenario_paths :
  collect routePathCollector gathering_scenario
  = Ok (<[8 := sample_path_b]> (<[7 := sample_path_a]> ∅)).
Proof. reflexivity. Qed.

Example gathering_scenario_parents :
  collect routeParentCollector gathering_scenario
  = Ok (<[8 := PUndefined]> (<[7 := PUndefined]> ∅)).
Proof. reflexivity. Qed.

Example gathering_scenario_objects :
  collect routeObjectCollector gathering_scenario = Err (MissingRouteObjectPath 7).
Proof. reflexivity. Qed.

(** * Further properties of the collectors *)

(** ** Runs as folds over the tree in document order *)

Lemma preorder_unfold {A} (item : option Node → Node → list A) parent n :
  preorder item parent n =
  item parent n ++ flat_map (preorder item (Some n)) (children n).
Proof. by destruct n. Qed.

Section TraversalFolds.
Context {St Ctx : Type}.
Variable c : Collector St Ctx.

(** What every reducer call does to the state, a run does. *)
Lemma traverse_relates (R : St → St → Prop) :
  (∀ st, R st st) →
  (∀ s1 s2 s3, R s1 s2 → R s2 s3 → R s1 s3) →
  (∀ st n p ctx st' ctx', visit c st n p ctx = Ok (st', ctx') → R st st') →
  ∀ n p ctx st st', traverse c n p ctx st = Ok st' → R st st'.
Proof.
  intros Hrefl Htrans Hstep n. induction n as [n IH] using Node_ind.
  intros p ctx st st'. rewrite traverse_unfold.
  destruct (visit c st n p ctx) as [[st1 ctx1]|] eqn:Hv; [|done].
  intros Hrun. apply (Htrans _ st1); [by eapply Hstep|]. clear Hv.
  revert Hrun. generalize (Some n). intros q. revert st1.
  induction IH as [|x l Hx _ IHl]; intros st1; simpl.
  - intros [= <-]. apply Hrefl.
  - destruct (traverse c x q ctx1 st1) as [st2|] eqn:Hx1; [|done].
    intros Hrest. apply (Htrans _ st2); [by eapply Hx|by apply IHl].
Qed.

(** A view of the state that every reducer call updates by the items of
    its node is, after a run, updated by the items of the tree in document
    order. *)
Lemma traverse_abstract {A X} (abs : St → A)
    (item : option Node → Node → list X) (g : A → X → A) :
  (∀ st n p ctx st' ctx',
     visit c st n p ctx = Ok (st', ctx') → abs st' = foldl g (abs st) (item p n)) →
  ∀ n p ctx st st', traverse c n p ctx st = Ok st' →
    abs st' = foldl g (abs st) (preorder item p n).
Proof.
  intros Hstep n. induction n as [n IH] using Node_ind.
  intros p ctx st st'. rewrite traverse_unfold, preorder_unfold, foldl_app.
  destruct (visit c st n p ctx) as [[st1 ctx1]|] eqn:Hv; [|done].
  rewrite <-(Hstep _ _ _ _ _ _ Hv). clear Hv.
  generalize (Some n). intros q. revert st1.
  induction IH as [|x l Hx _ IHl]; intros st1; simpl.
  - by intros [= <-].
  - destruct (traverse c x q ctx1 st1) as [st2|] eqn:Hx1; [|done].
    intros Hrest. rewrite foldl_app, <-(Hx _ _ _ _ Hx1). by apply IHl.
Qed.

(** On a tree of nodes [G] on which the reducer, whatever the context,
    updates the state by the items of the node, the run succeeds and
    updates the state by the items of the tree in document order. *)
Lemma traverse_state_fold {X} (G : option Node → Node → bool)
    (item : option Node → Node → list X) (g : St → X → St) :
  (∀ st p n ctx, G p n = true →
     ∃ ctx', visit c st n p ctx = Ok (foldl g st (item p n), ctx')) →
  ∀ n p ctx st, all_nodes G p n = true →
    traverse c n p ctx st = Ok (foldl g st (preorder item p n)).
Proof.
  intros Hstep n. induction n as [n IH] using Node_ind.
  intros p ctx st HG. rewrite traverse_unfold, preorder_unfold, foldl_app.
  assert (G p n = true ∧ forallb (all_nodes G (Some n)) (children n) = true)
    as [HGn HGc] by (destruct n; simpl in *; by apply andb_prop in HG).
  destruct (Hstep st p n ctx HGn) as [ctx1 ->].
  generalize (foldl g st (item p n)). clear HG HGn. revert HGc IH.
  generalize (Some n) (children n). intros q l HGc IH.
  induction IH as [|x l Hx _ IHl]; intros st1; simpl in *; [done|].
  apply andb_prop in HGc as [HGx HGl].
  rewrite (Hx q ctx1 st1 HGx), foldl_app. by apply IHl.
Qed.

(** The same for a reducer that hands the context [ctx0] on unchanged, with
    the nodes [B] on which it succeeds and the error [e] it throws on the
    others. *)
Lemma traverse_fixed_ctx {X} (G B : option Node → Node → bool) (ctx0 : Ctx)
    (item : option Node → Node → list X) (g : St → X → St) (e : Error) :
  (∀ st p n, G p n = true → B p n = true →
     visit c st n p ctx0 = Ok (foldl g st (item p n), ctx0)) →
  (∀ st p n, G p n = true → B p n = false → visit c st n p ctx0 = Err e) →
  ∀ n p st, all_nodes G p n = true →
    traverse c n p ctx0 st =
    if all_nodes B p n then Ok (foldl g st (preorder item p n)) else Err e.
Proof.
  intros Hok Herr n. induction n as [n IH] using Node_ind.
  intros p st HG. rewrite traverse_unfold, preorder_unfold, foldl_app.
  assert (G p n = true ∧ forallb (all_nodes G (Some n)) (children n) = true)
    as [HGn HGc] by (destruct n; simpl in *; by apply andb_prop in HG).
  rewrite (all_nodes_unfold B).
  destruct (B p n) eqn:HB; simpl.
  - rewrite (Hok st p n HGn HB).
    generalize (foldl g st (item p n)). clear HG HGn HB. revert HGc IH.
    generalize (Some n) (children n). intros q l HGc IH.
    induction IH as [|x l Hx _ IHl]; intros st1; simpl in *; [done|].
    apply andb_prop in HGc as [HGx HGl].
    rewrite (Hx q st1 HGx), foldl_app.
    destruct (all_nodes B q x); simpl; [by apply IHl|done].
  - by rewrite (Herr st p n HGn HB).
Qed.
End TraversalFolds.

(** ** What one reducer call writes *)

Lemma routePath_visit_Ok acc node parent ctx acc' ctx' :
  routePathCollector_visit acc node parent ctx = Ok (acc', ctx') →
  match visited_mount_point parent node with
  | [] => acc' = acc
  | r :: _ => ∃ a s, acc' = <[r := String a s]> acc
  end.
Proof.
  unfold routePathCollector_visit, visited_mount_point.
  destruct (is_alias parent node); [by intros [= <- _]|].
  destruct (js_truthy_bool _).
  - destruct (js_truthy (props_path node)) eqn:Hp; [|done].
    destruct (getMountPoint node) as [r|]; [|by intros [= <- _]].
    rewrite Hp. destruct (props_path node) as [[|a s]|]; [done| |done].
    intros [= <- _]. by exists a, s.
  - destruct (getMountPoint node) as [r|]; [|by intros [= <- _]].
    destruct (js_truthy ctx) eqn:Hc; [destruct (js_truthy (props_path node))|].
    + destruct (props_path node) as [[|a s]|]; [done| |done].
      intros [= <- _]. by exists a, s.
    + destruct ctx as [[|a s]|]; [done| |done]. intros [= <- _]. by exists a, s.
    + destruct (props_path node) as [[|a s]|]; [done| |done].
      intros [= <- _]. by exists a, s.
Qed.

Lemma routeParent_visit_Ok acc node parent ctx acc' ctx' :
  routeParentCollector_visit acc node parent ctx = Ok (acc', ctx') →
  match visited_mount_point parent node with
  | [] => acc' = acc
  | r :: _ => ∃ v, acc' = <[r := v]> acc
  end.
Proof.
  unfold routeParentCollector_visit, visited_mount_point.
  destruct (is_alias parent node); [by intros [= <- _]|].
  destruct (getMountPoint node) as [r|].
  - destruct ctx; destruct (js_truthy_bool _); intros [= <- _]; eauto.
  - destruct (js_truthy_bool _); by intros [= <- _].
Qed.

Lemma foldl_union_singletons (D : gset RouteRef) (l : list RouteRef) :
  foldl (λ D r, {[r]} ∪ D) D l = list_to_set l ∪ D.
Proof.
  revert D. induction l as [|r l IH]; intros D; simpl.
  - by rewrite (left_id_L ∅ (∪)).
  - rewrite IH, (assoc_L (∪)). f_equal. apply (comm_L (∪)).
Qed.

Lemma routePath_visit_dom st n p ctx st' ctx' :
  visit routePathCollector st n p ctx = Ok (st', ctx') →
  dom st' =@{gset RouteRef} foldl (λ D r, {[r]} ∪ D) (dom st) (visited_mount_point p n).
Proof.
  intros Hv. apply routePath_visit_Ok in Hv.
  unfold visited_mount_point in *. destruct (is_alias p n); [by subst|].
  destruct (getMountPoint n) as [r|]; [|by subst].
  destruct Hv as (a & s & ->). simpl. by rewrite dom_insert_L.
Qed.

Lemma routeParent_visit_dom st n p ctx st' ctx' :
  visit routeParentCollector st n p ctx = Ok (st', ctx') →
  dom st' =@{gset RouteRef} foldl (λ D r, {[r]} ∪ D) (dom st) (visited_mount_point p n).
Proof.
  intros Hv. apply routeParent_visit_Ok in Hv.
  unfold visited_mount_point in *. destruct (is_alias p n); [by subst|].
  destruct (getMountPoint n) as [r|]; [|by subst].
  destruct Hv as [v ->]. simpl. by rewrite dom_insert_L.
Qed.

(** ** Keys and values of the two maps *)

(** X1.  A run of the Route-Path Collector that succeeds never returns an
    empty path: whatever the reducer passes to [acc.set] went through
    [if (!path) throw]. *)
Theorem routePathCollector_records_no_empty_path root m r p :
  collect routePathCollector root = Ok m →
  m !! r = Some p →
  p ≠ EmptyString.
Proof.
  intros Hrun. revert r p.
  apply (traverse_relates routePathCollector
           (λ a a' : gmap RouteRef string,
              (∀ r p, a !! r = Some p → p ≠ EmptyString) →
              (∀ r p, a' !! r = Some p → p ≠ EmptyString)))
    with (n := root) (p := @None Node) (ctx := @None string) (st := ∅);
    [done|by eauto| |exact Hrun|done].
  intros st n q ctx st' ctx' Hv Hst r p. apply routePath_visit_Ok in Hv.
  destruct (visited_mount_point q n) as [|r' _]; [by subst; apply Hst|].
  destruct Hv as (a & s & ->).
  destruct (decide (r' = r)) as [->|Hne].
  - rewrite lookup_insert_eq. by intros [= <-].
  - rewrite lookup_insert_ne by done. apply Hst.
Qed.

Lemma routePathCollector_records_no_empty_path_witness :
  sample_path_a ≠ EmptyString.
Proof.
  apply (routePathCollector_records_no_empty_path gathering_scenario
           (<[8 := sample_path_b]> (<[7 := sample_path_a]> ∅)) 7 sample_path_a);
    reflexivity.
Defined.

(** X2.  The keys of the map the Route-Parent Collector returns are the
    routeRefs of the mount points its reducer ran on, no other and none
    missing. *)
Theorem routeParentCollector_keys root :
  ∃ m, collect routeParentCollector root = Ok m ∧
       dom m =@{gset RouteRef} list_to_set (visited_mount_points None root).
Proof.
  destruct (traverse_never_fails routeParentCollector routeParent_visit_ok
              root None PUndefined ∅) as [m Hrun].
  exists m. split; [exact Hrun|].
  rewrite (traverse_abstract routeParentCollector (dom : _ → gset RouteRef)
             visited_mount_point (λ D r, {[r]} ∪ D) routeParent_visit_dom
             _ _ _ _ _ Hrun).
  rewrite foldl_union_singletons.
  assert (dom (∅ : gmap RouteRef ParentValue) =@{gset RouteRef} ∅) as -> by apply dom_empty_L.
  apply (right_id_L ∅ (∪)).
Qed.

(** X3.  When a run of the Route-Path Collector succeeds, the keys of its
    map are the routeRefs of the mount points its reducer ran on: the same
    keys as those of the Route-Parent Collector. *)
Theorem routePathCollector_keys root m :
  collect routePathCollector root = Ok m →
  dom m =@{gset RouteRef} list_to_set (visited_mount_points None root).
Proof.
  intros Hrun. unfold collect in Hrun. simpl in Hrun.
  rewrite (traverse_abstract routePathCollector (dom : _ → gset RouteRef)
             visited_mount_point (λ D r, {[r]} ∪ D) routePath_visit_dom
             _ _ _ _ _ Hrun).
  rewrite foldl_union_singletons.
  assert (dom (∅ : gmap RouteRef string) =@{gset RouteRef} ∅) as -> by apply dom_empty_L.
  apply (right_id_L ∅ (∪)).
Qed.

Lemma routePathCollector_keys_witness :
  dom (<[8 := sample_path_b]> (<[7 := sample_path_a]> (∅ : gmap RouteRef string)))
  =@{gset RouteRef} list_to_set (visited_mount_points None gathering_scenario).
Proof.
  apply (routePathCollector_keys gathering_scenario). reflexivity.
Defined.

(** ** The route objects and the mount points of the tree *)

(** The run of the Route-Object Collector on a tree whose mount points all
    have a path, with the number of arrays it leaves in the heap. *)
Lemma routeObject_run_nested root :
  all_nodes mount_point_has_path None root = true →
  ∃ h, collect routeObjectCollector root = Ok h ∧
       routeObjects h = Some (nested_routes None root) ∧
       length h = S (forest_size (nested_routes None root)).
Proof.
  intros Hok.
  destruct (walk_spec_all root None None [[]]) as (cells & tail & Hrun & R & Sz);
    [unfold acc_array; simpl; lia|done|].
  exists (grown [[]] (default acc_array None) cells tail).
  split; [exact Hrun|]. split.
  - unfold routeObjects, grown. simpl. apply mapM_Some_2.
    specialize (R [cells] [] (length tail)).
    rewrite (right_id_L [] (++)) in R. simpl in R.
    apply R; [done|]. rewrite Sz. apply forest_depth_le_size.
  - rewrite grown_length. simpl. by rewrite Sz.
Qed.

Lemma flat_map_flat_map {A B C} (f : A → list B) (g : B → list C) (l : list A) :
  flat_map g (flat_map f l) = flat_map (λ x, flat_map g (f x)) l.
Proof.
  induction l as [|x l IH]; simpl; [done|]. by rewrite flat_map_app, IH.
Qed.

Lemma flat_map_ext_Forall {A B} (f g : A → list B) (l : list A) :
  Forall (λ x, f x = g x) l → flat_map f l = flat_map g l.
Proof. induction 1 as [|x l Hx _ IH]; simpl; [done|]. by rewrite Hx, IH. Qed.

Lemma nested_routes_refs n :
  ∀ parent, flat_map ro_refs (nested_routes parent n) = visited_mount_points parent n.
Proof.
  induction n as [n IH] using Node_ind. intros parent.
  unfold visited_mount_points.
  rewrite nested_routes_unfold, preorder_unfold. cbv zeta.
  assert (flat_map ro_refs (flat_map (nested_routes (Some n)) (children n))
          = flat_map (preorder visited_mount_point (Some n)) (children n)) as Hbelow.
  { rewrite flat_map_flat_map. apply flat_map_ext_Forall.
    eapply Forall_impl; [exact IH|]. intros x Hx. apply Hx. }
  unfold visited_mount_point at 1.
  destruct (is_alias parent n); [done|].
  destruct (getMountPoint n) as [r|]; [|done].
  simpl. by rewrite (right_id_L [] (++)), Hbelow.
Qed.

Lemma forest_size_refs os : forest_size os = length (flat_map ro_refs os).
Proof.
  unfold forest_size. induction os as [|o os IH]; simpl; [done|].
  rewrite length_app, <-IH. f_equal. clear IH.
  induction o as [o IHo] using BackstageRouteObject_ind.
  destruct o as [cs p r kids]; simpl in *. f_equal.
  induction IHo as [|k kids Hk _ IHkids]; simpl; [done|].
  by rewrite length_app, Hk, IHkids.
Qed.

(** X4.  When every mount point has a path, the route objects the
    collector returns, read object by object with the nested objects right
    after the object they are nested in, carry the routeRefs of the mount
    points of the tree in document order, one object for each visit of a
    mount point; the run has created one array for each of them besides the
    accumulator. *)
Theorem routeObjectCollector_refs_in_document_order root :
  all_nodes mount_point_has_path None root = true →
  ∃ h os, collect routeObjectCollector root = Ok h ∧
          routeObjects h = Some os ∧
          flat_map ro_refs os = visited_mount_points None root ∧
          length h = S (length (visited_mount_points None root)).
Proof.
  intros Hok.
  destruct (routeObject_run_nested root Hok) as (h & Hrun & Hread & Hlen).
  exists h, (nested_routes None root). repeat split; try done.
  - apply nested_routes_refs.
  - by rewrite Hlen, forest_size_refs, nested_routes_refs.
Qed.

Lemma routeObjectCollector_refs_in_document_order_witness :
  ∃ h os, collect routeObjectCollector nested_mount_points = Ok h ∧
          routeObjects h = Some os ∧
          flat_map ro_refs os = visited_mount_points None nested_mount_points ∧
          length h = S (length (visited_mount_points None nested_mount_points)).
Proof.
  apply (routeObjectCollector_refs_in_document_order nested_mount_points).
  reflexivity.
Defined.

Section FirstError.
Context {St Ctx X : Type}.
Variable c : Collector St Ctx.
Variable item : option Node → Node → list X.
Variable mk : X → Error.
Hypothesis visit_item : ∀ st p n ctx,
  match item p n with
  | [] => is_ok (visit c st n p ctx) = true
  | x :: _ => visit c st n p ctx = Err (mk x)
  end.

(** A reducer that throws on the nodes that have an item, and on no
    other, makes the run fail with the error of the first item in document
    order. *)
Lemma traverse_first_error n :
  ∀ p ctx st,
    match preorder item p n with
    | [] => is_ok (traverse c n p ctx st) = true
    | x :: _ => traverse c n p ctx st = Err (mk x)
    end.
Proof.
  induction n as [n IH] using Node_ind. intros p ctx st.
  rewrite traverse_unfold, preorder_unfold.
  pose proof (visit_item st p n ctx) as Hv.
  destruct (item p n) as [|x rest]; simpl; [|by rewrite Hv].
  destruct (visit c st n p ctx) as [[st1 ctx1]|]; [clear Hv|done].
  generalize (Some n). intros q. revert st1.
  induction IH as [|y l Hy _ IHl]; intros st1; simpl; [done|].
  specialize (Hy q ctx1 st1).
  destruct (preorder item q y) as [|x rest]; simpl.
  - destruct (traverse c y q ctx1 st1) as [st2|]; [apply IHl|done].
  - by rewrite Hy.
Qed.
End FirstError.

(** X5.  A run of the Route-Object Collector fails exactly when some mount
    point its reducer runs on has no path, and the error it throws names
    the first such mount point in document order. *)
Theorem routeObjectCollector_reports_first_pathless root :
  match pathless_mount_points None root with
  | [] => ∃ h, collect routeObjectCollector root = Ok h
  | r :: _ => collect routeObjectCollector root = Err (MissingRouteObjectPath r)
  end.
Proof.
  assert (∀ st p n ctx,
            match pathless_mount_point p n with
            | [] => is_ok (visit routeObjectCollector st n p ctx) = true
            | x :: _ => visit routeObjectCollector st n p ctx
                        = Err (MissingRouteObjectPath x)
            end) as Hv.
  { intros st p n ctx. simpl.
    unfold pathless_mount_point, routeObjectCollector_visit.
    destruct (is_alias p n); [done|].
    destruct (getMountPoint n) as [r|]; [|done]. simpl.
    by destruct (props_path n) as [[|a s]|]. }
  pose proof (traverse_first_error routeObjectCollector pathless_mount_point
                MissingRouteObjectPath Hv root None
                (undefinedCtx routeObjectCollector)
                (accumulatorFactory routeObjectCollector)) as H.
  unfold pathless_mount_points, collect.
  destruct (preorder pathless_mount_point None root) as [|r rest]; [|exact H].
  destruct (traverse routeObjectCollector root None _ _) as [h|]; [by exists h|done].
Qed.

(** ** The heap only grows *)

Lemma append_only_refl h : append_only h h.
Proof. intros l arr H. exists []. by rewrite (right_id_L [] (++)). Qed.

Lemma append_only_trans h1 h2 h3 :
  append_only h1 h2 → append_only h2 h3 → append_only h1 h3.
Proof.
  intros H12 H23 l arr H.
  destruct (H12 l arr H) as [m1 H2]. destruct (H23 l _ H2) as [m2 H3].
  exists (m1 ++ m2). by rewrite (assoc_L (++)).
Qed.

Lemma routeObject_visit_append_only a h node parent ctx h' ctx' :
  routeObjectCollector_visit a h node parent ctx = Ok (h', ctx') →
  append_only h h'.
Proof.
  unfold routeObjectCollector_visit.
  destruct (is_alias parent node); [intros [= <- _]; apply append_only_refl|].
  destruct (getMountPoint node) as [r|];
    [|intros [= <- _]; apply append_only_refl].
  simpl. destruct (props_path node) as [[|c s]|]; [done| |done].
  intros [= <- _] l arr Hl. unfold push.
  rewrite list_lookup_alter, (lookup_app_l_Some _ _ _ _ Hl).
  destruct (decide (default a ctx = l)) as [->|_].
  - rewrite (lookup_app_l_Some _ _ _ _ Hl). simpl. by eexists.
  - exists []. by rewrite (right_id_L [] (++)).
Qed.

(** X12.  A run of the Route-Object Collector, from any node and any heap,
    only appends: every array that existed before is still there
    afterwards and begins with the objects it had, so an object once pushed
    is never moved, replaced or removed. *)
Theorem routeObjectCollector_only_appends n parent ctx h h' :
  traverse routeObjectCollector n parent ctx h = Ok h' →
  append_only h h'.
Proof.
  apply (traverse_relates routeObjectCollector append_only).
  - apply append_only_refl.
  - apply append_only_trans.
  - intros st m p c st' c'. apply routeObject_visit_append_only.
Qed.

Lemma routeObjectCollector_only_appends_witness :
  append_only [[]]
    [[mkCell false sample_path_a 7 1];
     [mkCell true sample_path_b 8 2;
      mkCell false sample_path_c 9 3;
      mkCell false sample_path_d 10 4];
     []; []; []].
Proof.
  apply (routeObjectCollector_only_appends nested_mount_points None None).
  reflexivity.
Defined.

(** ** Gathering regions *)

Lemma traverse_each_fixed_ctx {St Ctx X} (c : Collector St Ctx)
    (G : option Node → Node → bool) (ctx0 : Ctx)
    (item : option Node → Node → list X) (g : St → X → St) :
  (∀ st p n, G p n = true →
     visit c st n p ctx0 = Ok (foldl g st (item p n), ctx0)) →
  ∀ l q st, forallb (all_nodes G q) l = true →
    traverse_each c l q ctx0 st = Ok (foldl g st (flat_map (preorder item q) l)).
Proof.
  intros Hstep l q. induction l as [|x l IH]; intros st Hl; simpl in *; [done|].
  apply andb_prop in Hl as [Hx Hl].
  rewrite (traverse_fixed_ctx c G any_node ctx0 item g MissingGatherPath);
    [|by auto|done|done].
  rewrite all_nodes_any, foldl_app. by apply IH.
Qed.

Lemma routePath_visit_in_region st p n c :
  js_truthy (Some c) = true →
  plain_without_path p n = true →
  visit routePathCollector st n p (Some c)
  = Ok (foldl (λ m r, <[r := c]> m) st (visited_mount_point p n), Some c).
Proof.
  intros Hc Hn. simpl.
  unfold routePathCollector_visit, plain_without_path, visited_mount_point in *.
  destruct (is_alias p n); [done|]. simpl in Hn.
  apply andb_prop in Hn as [Hg Hp].
  apply negb_true_iff in Hg. apply negb_true_iff in Hp. rewrite Hg.
  destruct (getMountPoint n) as [r|]; [|done].
  rewrite Hc, Hp. by destruct c.
Qed.

Lemma routeParent_visit_in_region st p n inner :
  plain_without_path p n = true →
  visit routeParentCollector st n p (PSticky inner)
  = Ok (foldl (λ m r, <[r := inner]> m) st (visited_mount_point p n), PSticky inner).
Proof.
  intros Hn. simpl.
  unfold routeParentCollector_visit, plain_without_path, visited_mount_point in *.
  destruct (is_alias p n); [done|]. simpl in Hn.
  apply andb_prop in Hn as [Hg Hp].
  apply negb_true_iff in Hg. apply negb_true_iff in Hp. rewrite Hg.
  destruct (getMountPoint n) as [r|]; [|done]. by rewrite Hp.
Qed.

(** X6.  Take a gathering node on which the reducer runs (it is not the
    [element] of its structural parent), with path [c], that is not itself
    a mount point.  When no node below it on which the reducer runs has a
    path or a gathering flag of its own, the Route-Path Collector never
    fails on it and records [c] for every mount point below on which the
    reducer runs, however deep, and nothing else; the context the gathering
    node was given plays no part. *)
Theorem routePathCollector_gatherer_path_for_all g parent ctx acc c :
  is_alias parent g = false →
  js_truthy_bool (getComponentData_gatherMountPoints g) = true →
  props_path g = Some c →
  js_truthy (Some c) = true →
  getMountPoint g = None →
  forallb (all_nodes plain_without_path (Some g)) (children g) = true →
  traverse routePathCollector g parent ctx acc
  = Ok (set_each c acc (visited_mount_points parent g)).
Proof.
  intros Ha Hg Hp Hc Hm Hch.
  rewrite traverse_unfold. simpl visit.
  rewrite (routePath_visit_gatherer_with_path acc g parent ctx c Ha Hg Hp Hc), Hm.
  rewrite (traverse_each_fixed_ctx routePathCollector plain_without_path (Some c)
             visited_mount_point (λ m r, <[r := c]> m));
    [|by intros; apply routePath_visit_in_region|done].
  unfold set_each, visited_mount_points. rewrite preorder_unfold.
  unfold visited_mount_point at 2. by rewrite Ha, Hm.
Qed.

(** A gathering node (path "/a", no mount point) over a mount point 7
    that holds a plain element over a mount point 8; none of them has a
    path. *)
Lemma routePathCollector_gatherer_path_for_all_witness :
  traverse routePathCollector
    (mkNode 1 (Some sample_path_a) None None None (Some true)
       [mkNode 2 None None None (Some 7) None
          [mkNode 3 None None None None None
             [mkNode 4 None None None (Some 8) None []]]])
    None (Some sample_path_b) ∅
  = Ok (set_each sample_path_a ∅ [7; 8]).
Proof.
  apply (routePathCollector_gatherer_path_for_all
           (mkNode 1 (Some sample_path_a) None None None (Some true)
              [mkNode 2 None None None (Some 7) None
                 [mkNode 3 None None None None None
                    [mkNode 4 None None None (Some 8) None []]]])
           None (Some sample_path_b) ∅ sample_path_a); reflexivity.
Defined.

(** X7.  Take a gathering node on which the reducer runs (it is not the
    [element] of its structural parent) and that is not itself a mount
    point.  When no node below it on which the reducer runs has a path or a
    gathering flag of its own, the Route-Parent Collector records for every
    mount point below on which the reducer runs, however deep, the parent
    that was current at the gathering node: the mount points of the region
    are siblings, whatever their nesting. *)
Theorem routeParentCollector_gatherer_parent_for_all g parent ctx acc :
  is_alias parent g = false →
  js_truthy_bool (getComponentData_gatherMountPoints g) = true →
  getMountPoint g = None →
  forallb (all_nodes plain_without_path (Some g)) (children g) = true →
  traverse routeParentCollector g parent ctx acc
  = Ok (set_each ctx acc (visited_mount_points parent g)).
Proof.
  intros Ha Hg Hm Hch.
  rewrite traverse_unfold. simpl visit.
  unfold routeParentCollector_visit. rewrite Ha, Hm, Hg.
  rewrite (traverse_each_fixed_ctx routeParentCollector plain_without_path
             (PSticky ctx) visited_mount_point (λ m r, <[r := ctx]> m));
    [|by intros; apply routeParent_visit_in_region|done].
  unfold set_each, visited_mount_points. rewrite preorder_unfold.
  unfold visited_mount_point at 2. by rewrite Ha, Hm.
Qed.

Lemma routeParentCollector_gatherer_parent_for_all_witness :
  traverse routeParentCollector
    (mkNode 1 (Some sample_path_a) None None None (Some true)
       [mkNode 2 None None None (Some 7) None
          [mkNode 3 None None None None None
             [mkNode 4 None None None (Some 8) None []]]])
    None (PRef 9) ∅
  = Ok (set_each (PRef 9) ∅ [7; 8]).
Proof.
  apply (routeParentCollector_gatherer_parent_for_all
           (mkNode 1 (Some sample_path_a) None None None (Some true)
              [mkNode 2 None None None (Some 7) None
                 [mkNode 3 None None None None None
                    [mkNode 4 None None None (Some 8) None []]]])
           None (PRef 9) ∅); reflexivity.
Defined.

(** ** The maps and the route objects agree *)

Lemma all_nodes_and (A B : option Node → Node → bool) n :
  ∀ parent,
    all_nodes (λ p x, A p x && B p x) parent n
    = all_nodes A parent n && all_nodes B parent n.
Proof.
  induction n as [n IH] using Node_ind. intros parent.
  rewrite !all_nodes_unfold.
  assert (forallb (all_nodes (λ p x, A p x && B p x) (Some n)) (children n)
          = forallb (all_nodes A (Some n)) (children n)
            && forallb (all_nodes B (Some n)) (children n)) as ->.
  { generalize (Some n). intros q.
    induction IH as [|x l Hx _ IHl]; simpl; [done|].
    rewrite Hx, IHl.
    destruct (all_nodes A q x), (all_nodes B q x),
      (forallb (all_nodes A q) l); done. }
  destruct (A parent n), (B parent n),
    (forallb (all_nodes A (Some n)) (children n)); done.
Qed.

Lemma nested_routes_paths n :
  ∀ parent,
    flat_map ro_paths (nested_routes parent n) = preorder own_path_entry parent n.
Proof.
  induction n as [n IH] using Node_ind. intros parent.
  rewrite nested_routes_unfold, preorder_unfold. cbv zeta.
  assert (flat_map ro_paths (flat_map (nested_routes (Some n)) (children n))
          = flat_map (preorder own_path_entry (Some n)) (children n)) as Hbelow.
  { rewrite flat_map_flat_map. apply flat_map_ext_Forall.
    eapply Forall_impl; [exact IH|]. intros x Hx. apply Hx. }
  unfold own_path_entry at 1.
  destruct (is_alias parent n); [done|].
  destruct (getMountPoint n) as [r|]; [|done].
  simpl. by rewrite (right_id_L [] (++)), Hbelow.
Qed.

Lemma routePath_visit_own_path st p n ctx :
  gatherer_has_path p n && mount_point_has_path p n = true →
  ∃ ctx', visit routePathCollector st n p ctx
          = Ok (foldl (λ m e, <[e.1 := e.2]> m) st (own_path_entry p n), ctx').
Proof.
  intros H. apply andb_prop in H as [Hg Hm]. simpl.
  unfold routePathCollector_visit, gatherer_has_path, mount_point_has_path,
    own_path_entry in *.
  destruct (is_alias p n); [by eauto|]. simpl in *.
  destruct (getMountPoint n) as [r|].
  - simpl in Hm. rewrite Hm.
    destruct (js_truthy_Some_inv _ Hm) as (a & s & ->).
    destruct (js_truthy_bool _); [by eauto|].
    destruct (js_truthy ctx); by eauto.
  - destruct (js_truthy_bool _); simpl in *; [rewrite Hg|]; by eauto.
Qed.

(** X9.  When every mount point the reducers run on has a path of its own
    and every gathering node has a path, the Route-Path Collector succeeds
    and maps each routeRef to the path of its route object: a mount point's
    own path always wins over a gathered one.  Where a routeRef is mounted
    more than once, the last mount in document order is the one kept. *)
Theorem routePathCollector_agrees_with_route_objects root :
  all_nodes gatherer_has_path None root = true →
  all_nodes mount_point_has_path None root = true →
  ∃ h os, collect routeObjectCollector root = Ok h ∧
          routeObjects h = Some os ∧
          collect routePathCollector root = Ok (set_all ∅ (flat_map ro_paths os)).
Proof.
  intros Hg Hm.
  destruct (routeObject_run_nested root Hm) as (h & Hrun & Hread & _).
  exists h, (nested_routes None root). repeat split; try done.
  unfold collect, set_all. rewrite nested_routes_paths.
  apply (traverse_state_fold routePathCollector
           (λ p n, gatherer_has_path p n && mount_point_has_path p n)).
  - intros st p n ctx. apply routePath_visit_own_path.
  - by rewrite all_nodes_and, Hg, Hm.
Qed.

Lemma routePathCollector_agrees_with_route_objects_witness :
  ∃ h os, collect routeObjectCollector nested_mount_points = Ok h ∧
          routeObjects h = Some os ∧
          collect routePathCollector nested_mount_points
          = Ok (set_all ∅ (flat_map ro_paths os)).
Proof.
  apply (routePathCollector_agrees_with_route_objects nested_mount_points);
    reflexivity.
Defined.

Lemma routePath_visit_plain_ok st p n :
  not_a_gatherer p n = true →
  mount_point_has_path p n = true →
  visit routePathCollector st n p None
  = Ok (foldl (λ m e, <[e.1 := e.2]> m) st (own_path_entry p n), None).
Proof.
  intros Hg Hm. simpl.
  unfold routePathCollector_visit, not_a_gatherer, mount_point_has_path,
    own_path_entry in *.
  destruct (is_alias p n); [done|]. simpl in *.
  apply negb_true_iff in Hg. rewrite Hg.
  destruct (getMountPoint n) as [r|]; [|done].
  simpl in *. by destruct (js_truthy_Some_inv _ Hm) as (a & s & ->).
Qed.

Lemma routePath_visit_plain_err st p n :
  not_a_gatherer p n = true →
  mount_point_has_path p n = false →
  visit routePathCollector st n p None = Err MissingMountPath.
Proof.
  intros Hg Hm. simpl.
  unfold routePathCollector_visit, not_a_gatherer, mount_point_has_path in *.
  destruct (is_alias p n); [done|]. simpl in *.
  apply negb_true_iff in Hg. rewrite Hg.
  destruct (getMountPoint n) as [r|]; [|done].
  simpl in *. by destruct (props_path n) as [[|a s]|].
Qed.

(** X10.  On a tree without gathering nodes the Route-Path Collector and
    the Route-Object Collector reject the same trees: when some mount point
    has no path, the first fails with [MissingMountPath] and the second with
    [MissingRouteObjectPath]. *)
Theorem collectors_reject_pathless_mount_point root :
  all_nodes not_a_gatherer None root = true →
  all_nodes mount_point_has_path None root = false →
  collect routePathCollector root = Err MissingMountPath ∧
  ∃ r, collect routeObjectCollector root = Err (MissingRouteObjectPath r).
Proof.
  intros Hg Hm. split; [|by apply routeObjectCollector_run_fails].
  unfold collect. simpl.
  rewrite (traverse_fixed_ctx routePathCollector not_a_gatherer
             mount_point_has_path None own_path_entry
             (λ m e, <[e.1 := e.2]> m) MissingMountPath);
    [by rewrite Hm| | |done].
  - intros st p n. apply routePath_visit_plain_ok.
  - intros st p n. apply routePath_visit_plain_err.
Qed.

Lemma collectors_reject_pathless_mount_point_witness :
  collect routePathCollector (mkNode 1 None None None None None [mount_without_path])
    = Err MissingMountPath ∧
  ∃ r, collect routeObjectCollector
         (mkNode 1 None None None None None [mount_without_path])
       = Err (MissingRouteObjectPath r).
Proof.
  apply (collectors_reject_pathless_mount_point
           (mkNode 1 None None None None None [mount_without_path]));
    reflexivity.
Defined.

(** The run of the Route-Parent Collector on a tree without gathering
    nodes, started with a context that is not sticky. *)
Lemma routeParent_walk_plain n :
  ∀ p ctx acc,
    is_sticky ctx = false →
    all_nodes not_a_gatherer p n = true →
    traverse routeParentCollector n p ctx acc
    = Ok (set_all acc (flat_map (ro_parents ctx) (nested_routes p n))).
Proof.
  induction n as [n IH] using Node_ind. intros p ctx acc Hctx HG.
  rewrite all_nodes_unfold in HG. apply andb_prop in HG as [Hn Hc].
  assert (∀ ctx1 acc1, is_sticky ctx1 = false →
            traverse_each routeParentCollector (children n) (Some n) ctx1 acc1
            = Ok (set_all acc1
                    (flat_map (ro_parents ctx1)
                       (flat_map (nested_routes (Some n)) (children n))))) as Each.
  { intros ctx1 acc1 H1. revert acc1. clear Hn. revert Hc.
    generalize (Some n). intros q.
    induction IH as [|x l Hx _ IHl]; intros Hc acc1; simpl in *; [done|].
    apply andb_prop in Hc as [Hcx Hcl].
    rewrite (Hx q ctx1 acc1 H1 Hcx), flat_map_app.
    unfold set_all in *. rewrite foldl_app. by apply IHl. }
  rewrite traverse_unfold, nested_routes_unfold. cbv zeta. simpl visit.
  unfold routeParentCollector_visit, not_a_gatherer in *.
  destruct (is_alias p n); [by apply Each|]. simpl in Hn.
  apply negb_true_iff in Hn. rewrite Hn.
  destruct (getMountPoint n) as [r|]; [|by apply Each].
  destruct ctx as [|r0|inner]; [| |done]; rewrite Each by done; simpl;
    by rewrite (right_id_L [] (++)).
Qed.

(** X8.  On a tree without gathering nodes in which every mount point has
    a path, the Route-Parent Collector maps each routeRef to the routeRef
    of the route object its own route object is nested in, and to
    [undefined] for the objects of the returned array. *)
Theorem routeParentCollector_agrees_with_route_objects root :
  all_nodes not_a_gatherer None root = true →
  all_nodes mount_point_has_path None root = true →
  ∃ h os, collect routeObjectCollector root = Ok h ∧
          routeObjects h = Some os ∧
          collect routeParentCollector root
          = Ok (set_all ∅ (flat_map (ro_parents PUndefined) os)).
Proof.
  intros Hg Hm.
  destruct (routeObject_run_nested root Hm) as (h & Hrun & Hread & _).
  exists h, (nested_routes None root). repeat split; try done.
  unfold collect. simpl. by apply routeParent_walk_plain.
Qed.

Lemma routeParentCollector_agrees_with_route_objects_witness :
  ∃ h os, collect routeObjectCollector nested_mount_points = Ok h ∧
          routeObjects h = Some os ∧
          collect routeParentCollector nested_mount_points
          = Ok (set_all ∅ (flat_map (ro_parents PUndefined) os)).
Proof.
  apply (routeParentCollector_agrees_with_route_objects nested_mount_points);
    reflexivity.
Defined.

(** ** Gathering nodes that are not nested *)

Lemma gatherers_not_nested_unfold inside parent n :
  gatherers_not_nested inside parent n =
  if is_alias parent n then
    forallb (gatherers_not_nested inside (Some n)) (children n)
  else if js_truthy_bool (getComponentData_gatherMountPoints n) then
    negb inside && forallb (gatherers_not_nested true (Some n)) (children n)
  else forallb (gatherers_not_nested inside (Some n)) (children n).
Proof. by destruct n. Qed.

Lemma routeParent_walk_flat n :
  ∀ inside p ctx acc acc',
    gatherers_not_nested inside p n = true →
    flat_context ctx = true →
    (inside = false → is_sticky ctx = false) →
    map_Forall (λ _ v, is_sticky v = false) acc →
    traverse routeParentCollector n p ctx acc = Ok acc' →
    map_Forall (λ _ v, is_sticky v = false) acc'.
Proof.
  induction n as [n IH] using Node_ind.
  intros inside p ctx acc acc' HG Hflat Hin Hacc.
  assert (∀ inside1 ctx1 acc1 acc2,
            forallb (gatherers_not_nested inside1 (Some n)) (children n) = true →
            flat_context ctx1 = true →
            (inside1 = false → is_sticky ctx1 = false) →
            map_Forall (λ _ v, is_sticky v = false) acc1 →
            traverse_each routeParentCollector (children n) (Some n) ctx1 acc1
              = Ok acc2 →
            map_Forall (λ _ v, is_sticky v = false) acc2) as Each.
  { intros inside1 ctx1 acc1 acc2 Hc H1 H2. revert acc1. revert Hc.
    generalize (Some n). intros q.
    induction IH as [|x l Hx _ IHl]; intros Hc acc1 Ha; simpl in *.
    - by intros [= <-].
    - apply andb_prop in Hc as [Hcx Hcl].
      destruct (traverse routeParentCollector x q ctx1 acc1) as [acc3|] eqn:Hrun;
        [|done].
      apply IHl; [done|]. by eapply Hx. }
  rewrite gatherers_not_nested_unfold in HG.
  rewrite traverse_unfold. simpl visit. unfold routeParentCollector_visit.
  destruct (is_alias p n); [by apply (Each inside)|].
  destruct (js_truthy_bool (getComponentData_gatherMountPoints n)).
  - apply andb_prop in HG as [Hi HG]. apply negb_true_iff in Hi.
    specialize (Hin Hi).
    destruct (getMountPoint n) as [r|].
    + destruct ctx as [|r0|inner]; [| |done];
        (apply (Each true); [done|done|done|]);
        by apply map_Forall_insert_2.
    + destruct ctx as [|r0|inner]; [| |done]; by apply (Each true).
  - destruct (getMountPoint n) as [r|]; [|by apply (Each inside)].
    destruct ctx as [|r0|inner].
    + apply (Each inside); [done|done|done|]. by apply map_Forall_insert_2.
    + apply (Each inside); [done|done|done|]. by apply map_Forall_insert_2.
    + simpl in Hflat. apply negb_true_iff in Hflat.
      apply (Each inside); [done| | |by apply map_Forall_insert_2].
      * by destruct (js_truthy (props_path n)); simpl; rewrite ?Hflat.
      * intros Hi. by specialize (Hin Hi).
Qed.

(** X11.  When no gathering node lies below another gathering node, no
    value of the map the Route-Parent Collector returns is a sticky object:
    every parent is [undefined] or a routeRef. *)
Theorem routeParentCollector_no_sticky_value root m r v :
  gatherers_not_nested false None root = true →
  collect routeParentCollector root = Ok m →
  m !! r = Some v →
  is_sticky v = false.
Proof.
  intros HG Hrun Hr. unfold collect in Hrun. simpl in Hrun.
  apply (routeParent_walk_flat root false None PUndefined ∅ m HG) in Hrun;
    [by apply (Hrun r v)|done|done|apply map_Forall_empty].
Qed.

Lemma routeParentCollector_no_sticky_value_witness :
  is_sticky PUndefined = false.
Proof.
  apply (routeParentCollector_no_sticky_value gathering_scenario
           (<[8 := PUndefined]> (<[7 := PUndefined]> ∅)) 8 PUndefined);
    reflexivity.
Defined.

(** ** The errors of the Route-Path Collector *)

Section ErrorBlame.
Context {St Ctx : Type}.
Variable c : Collector St Ctx.
Variable e : Error.
Variable B : option Node → Node → bool.
Hypothesis visit_blame : ∀ st p n ctx, B p n = true → visit c st n p ctx ≠ Err e.

(** An error the reducer does not throw on the nodes [B] is not the error
    of a run over a tree of such nodes. *)
Lemma traverse_error_blame n :
  ∀ p ctx st, all_nodes B p n = true → traverse c n p ctx st ≠ Err e.
Proof.
  induction n as [n IH] using Node_ind. intros p ctx st HB.
  rewrite all_nodes_unfold in HB. apply andb_prop in HB as [Hn Hc].
  rewrite traverse_unfold.
  pose proof (visit_blame st p n ctx Hn) as Hv.
  destruct (visit c st n p ctx) as [[st1 ctx1]|e1]; [clear Hv|congruence].
  revert Hc. generalize (Some n). intros q. revert st1.
  induction IH as [|x l Hx _ IHl]; intros st1 Hc; simpl in *; [done|].
  apply andb_prop in Hc as [Hcx Hcl].
  specialize (Hx q ctx1 st1 Hcx).
  destruct (traverse c x q ctx1 st1) as [st2|e2]; [by apply IHl|congruence].
Qed.
End ErrorBlame.

Lemma routePath_visit_errors st n p ctx e :
  visit routePathCollector st n p ctx = Err e →
  e = MissingGatherPath ∨ e = MissingMountPath.
Proof.
  simpl. unfold routePathCollector_visit.
  destruct (is_alias p n); [done|].
  destruct (js_truthy_bool _).
  - destruct (js_truthy (props_path n)) eqn:Hp; [|intros [= <-]; by left].
    destruct (getMountPoint n) as [r|]; [|done]. rewrite Hp.
    by destruct (js_truthy_Some_inv _ Hp) as (a & s & ->).
  - destruct (getMountPoint n) as [r|]; [|done].
    destruct (js_truthy ctx); [destruct (js_truthy (props_path n))|];
      match goal with
      | |- context [match ?x with _ => _ end] =>
          destruct x as [[|a s]|]; try done; intros [= <-]; by right
      end.
Qed.

(** X13.  A run of the Route-Path Collector fails in one of two ways only:
    with [MissingGatherPath], and then the tree has a gathering node without
    a path; or with [MissingMountPath], and then it has a mount point
    without a path of its own. *)
Theorem routePathCollector_errors root e :
  collect routePathCollector root = Err e →
  (e = MissingGatherPath ∧ all_nodes gatherer_has_path None root = false) ∨
  (e = MissingMountPath ∧ all_nodes mount_point_has_path None root = false).
Proof.
  intros Hrun. unfold collect in Hrun.
  destruct (traverse_errors routePathCollector
              (λ e, e = MissingGatherPath ∨ e = MissingMountPath)
              routePath_visit_errors _ _ _ _ _ Hrun) as [->| ->]; [left|right];
    (split; [done|]).
  - destruct (all_nodes gatherer_has_path None root) eqn:HB; [|done].
    exfalso. revert Hrun.
    apply (traverse_error_blame routePathCollector MissingGatherPath
             gatherer_has_path); [|done].
    intros st p n ctx Hg. simpl.
    unfold routePathCollector_visit, gatherer_has_path in *.
    destruct (is_alias p n); [done|].
    destruct (js_truthy_bool _); simpl in Hg.
    + rewrite Hg. destruct (js_truthy_Some_inv _ Hg) as (a & s & ->).
      by destruct (getMountPoint n).
    + destruct (getMountPoint n) as [r|]; [|done].
      destruct (js_truthy ctx); [destruct (js_truthy (props_path n))|];
        match goal with
        | |- context [match ?x with _ => _ end] =>
            destruct x as [[|a s]|]; done
        end.
  - destruct (all_nodes mount_point_has_path None root) eqn:HB; [|done].
    exfalso. revert Hrun.
    apply (traverse_error_blame routePathCollector MissingMountPath
             mount_point_has_path); [|done].
    intros st p n ctx Hm. simpl.
    unfold routePathCollector_visit, mount_point_has_path in *.
    destruct (is_alias p n); [done|]. simpl in Hm.
    destruct (getMountPoint n) as [r|].
    + simpl in Hm. rewrite Hm.
      destruct (js_truthy_Some_inv _ Hm) as (a & s & ->).
      destruct (js_truthy_bool _); [done|]. by destruct (js_truthy ctx).
    + destruct (js_truthy_bool _); [|done].
      by destruct (js_truthy (props_path n)).
Qed.

Lemma routePathCollector_errors_witness :
  (MissingGatherPath = MissingGatherPath
   ∧ all_nodes gatherer_has_path None lone_gatherer_without_path = false) ∨
  (MissingGatherPath = MissingMountPath
   ∧ all_nodes mount_point_has_path None lone_gatherer_without_path = false).
Proof.
  apply (routePathCollector_errors lone_gatherer_without_path MissingGatherPath).
  reflexivity.
Defined.

(** ** Where gathering starts and where it ends *)

(** X14.  For the Route-Path Collector a mount point with a path of its
    own ends the gathering region it lies in: the run on it and on all that
    is below it is the same under an active context path as under none, so
    nothing below inherits the gathered path. *)
Theorem routePathCollector_pathed_mount_point_ends_region m parent ctx acc r :
  is_alias parent m = false →
  getMountPoint m = Some r →
  js_truthy (props_path m) = true →
  js_truthy ctx = true →
  traverse routePathCollector m parent ctx acc
  = traverse routePathCollector m parent None acc.
Proof.
  intros Ha Hm Hp Hc. rewrite !traverse_unfold. simpl visit.
  unfold routePathCollector_visit. rewrite Ha, Hm, Hp.
  destruct (js_truthy_bool _); simpl; [done|]. by rewrite Hc.
Qed.

Lemma routePathCollector_pathed_mount_point_ends_region_witness :
  traverse routePathCollector
    (mkNode 1 (Some sample_path_b) None None (Some 7) None [mount_without_path])
    None (Some sample_path_a) ∅
  = traverse routePathCollector
      (mkNode 1 (Some sample_path_b) None None (Some 7) None [mount_without_path])
      None None ∅.
Proof.
  apply (routePathCollector_pathed_mount_point_ends_region
           (mkNode 1 (Some sample_path_b) None None (Some 7) None [mount_without_path])
           None (Some sample_path_a) ∅ 7); reflexivity.
Defined.

(** X15.  For the Route-Parent Collector a mount point with a path ends
    the gathering region it lies in: under the sticky context
    [{ sticky: inner }] the run on it and on all that is below it is the run
    under the plain context [inner]. *)
Theorem routeParentCollector_pathed_mount_point_ends_region m parent inner acc r :
  is_alias parent m = false →
  getMountPoint m = Some r →
  js_truthy (props_path m) = true →
  is_sticky inner = false →
  traverse routeParentCollector m parent (PSticky inner) acc
  = traverse routeParentCollector m parent inner acc.
Proof.
  intros Ha Hm Hp Hi. rewrite !traverse_unfold. simpl visit.
  unfold routeParentCollector_visit. rewrite Ha, Hm, Hp.
  by destruct inner.
Qed.

Lemma routeParentCollector_pathed_mount_point_ends_region_witness :
  traverse routeParentCollector
    (mkNode 1 (Some sample_path_b) None None (Some 7) None [mount_without_path])
    None (PSticky (PRef 9)) ∅
  = traverse routeParentCollector
      (mkNode 1 (Some sample_path_b) None None (Some 7) None [mount_without_path])
      None (PRef 9) ∅.
Proof.
  apply (routeParentCollector_pathed_mount_point_ends_region
           (mkNode 1 (Some sample_path_b) None None (Some 7) None [mount_without_path])
           None (PRef 9) ∅ 7); reflexivity.
Defined.

(** X16.  For the Route-Path Collector a gathering node starts afresh: the
    run on it and on all that is below it does not depend on the context
    path it is given, so an inner gathering node overrides an outer one. *)
Theorem routePathCollector_gatherer_ignores_context g parent ctx1 ctx2 acc :
  is_alias parent g = false →
  js_truthy_bool (getComponentData_gatherMountPoints g) = true →
  traverse routePathCollector g parent ctx1 acc
  = traverse routePathCollector g parent ctx2 acc.
Proof.
  intros Ha Hg. rewrite !traverse_unfold. simpl visit.
  unfold routePathCollector_visit. by rewrite Ha, Hg.
Qed.

Lemma routePathCollector_gatherer_ignores_context_witness :
  traverse routePathCollector gatherer_mount_with_path None (Some sample_path_b) ∅
  = traverse routePathCollector gatherer_mount_with_path None None ∅.
Proof.
  apply (routePathCollector_gatherer_ignores_context gatherer_mount_with_path
           None (Some sample_path_b) None ∅); reflexivity.
Defined.
